(** * Webhook logger: the fan-out server of [server.go]

    The server keeps a registry [fanOut] from session identifiers to
    per-subscriber channels, a shared inbound channel [messages], and a
    mutex [mu].  Broadcast workers ([run]) move every inbound message to
    every registered channel; three HTTP handlers publish, subscribe and
    serve the entry page.

    Go channels are buffered queues with a capacity; a send on a full
    channel and a [Lock] on a held mutex block.  Blocking is rendered as
    [None]: the operation is not enabled in that state. *)

From Stdlib Require Import ZArith String Ascii List Lia Bool.
From stdpp Require Import base option list gmap fin_maps.

Local Open Scope string_scope.
Local Open Scope Z_scope.

(** ** Channels *)

Module Channel.

Record chan := Chan { buf : list string; cap : nat; closed : bool }.

(** [make(chan string, n)] *)
Definition make (n : nat) : chan := Chan [] n false.

(** [ch <- m]: enabled when the channel is open and has a free slot.
    (A send on a closed channel panics in Go; nothing in this program
    closes a channel.) *)
Definition send (m : string) (c : chan) : option chan :=
  if closed c then None
  else if (length (buf c) <? cap c)%nat
       then Some (Chan (buf c ++ [m]) (cap c) (closed c))
       else None.

(** [m := <-ch]: enabled when a message is buffered. *)
Definition recv (c : chan) : option (string * chan) :=
  match buf c with
  | m :: q => Some (m, Chan q (cap c) (closed c))
  | [] => None
  end.

(** [for m := range ch] leaves the loop without a message only when the
    channel is closed and drained. *)
Definition drained (c : chan) : bool :=
  match buf c with [] => closed c | _ => false end.

End Channel.
Export Channel.

(** ** [strconv.ParseInt(s, 10, 64)] and [fmt.Sprint] of an [int64] *)

Module Strconv.

Definition is_digit (c : ascii) : bool :=
  (48 <=? nat_of_ascii c)%nat && (nat_of_ascii c <=? 57)%nat.

Definition digit_val (c : ascii) : Z := Z.of_nat (nat_of_ascii c) - 48.

Definition maxUint64 : Z := 2 ^ 64 - 1.

(** The digit loop of [ParseUint]: a non-digit is a syntax error, a
    value above [maxUint64] a range error; both are [None] here. *)
Fixpoint parse_digits (s : string) (n : Z) : option Z :=
  match s with
  | EmptyString => Some n
  | String c rest =>
      if is_digit c then
        let n1 := n * 10 + digit_val c in
        if maxUint64 <? n1 then None else parse_digits rest n1
      else None
  end.

Definition ParseUint (s : string) : option Z :=
  match s with
  | EmptyString => None
  | _ => parse_digits s 0
  end.

Definition ParseInt (s : string) : option Z :=
  match s with
  | EmptyString => None
  | String c rest =>
      let neg := Ascii.eqb c "-"%char in
      let digits := if Ascii.eqb c "+"%char || neg then rest else s in
      match ParseUint digits with
      | None => None
      | Some un =>
          let cutoff := 2 ^ 63 in
          if negb neg && (cutoff <=? un) then None
          else if neg && (cutoff <? un) then None
          else Some (if neg then - un else un)
      end
  end.

(** Decimal rendering of a signed integer, as [fmt.Sprint(idx)]. *)
Definition digit_char (d : Z) : ascii := ascii_of_nat (Z.to_nat (48 + d)).

Fixpoint format_pos (fuel : nat) (n : Z) (acc : string) : string :=
  match fuel with
  | O => acc
  | S fuel' =>
      let acc' := String (digit_char (n mod 10)) acc in
      if n <? 10 then acc' else format_pos fuel' (n / 10) acc'
  end.

Definition FormatInt (z : Z) : string :=
  let digits := format_pos (S (Z.to_nat (Z.log2 (Z.abs z)))) (Z.abs z) "" in
  if z <? 0 then String "-"%char digits else digits.

End Strconv.
Export Strconv.

(** ** [strings.SplitN(s, " ", 2)] and [strings.ToLower] *)

Module Strings.

(** Cut at the first space, if any. *)
Fixpoint cut_space (s : string) : option (string * string) :=
  match s with
  | EmptyString => None
  | String c rest =>
      if Ascii.eqb c " "%char then Some (EmptyString, rest)
      else match cut_space rest with
           | Some (a, b) => Some (String c a, b)
           | None => None
           end
  end.

Definition SplitN2 (s : string) : list string :=
  match cut_space s with
  | Some (a, b) => [a; b]
  | None => [s]
  end.

Definition lower (c : ascii) : ascii :=
  let n := nat_of_ascii c in
  if (65 <=? n)%nat && (n <=? 90)%nat then ascii_of_nat (n + 32) else c.

(** On the bytes of ASCII letters; other bytes are left as they are (Go
    maps non-ASCII runes to non-ASCII runes, except for two signs that
    lower to [k] and [i]). *)
Fixpoint ToLower (s : string) : string :=
  match s with
  | EmptyString => EmptyString
  | String c rest => String (lower c) (ToLower rest)
  end.

End Strings.
Export Strings.

(** ** The server *)

Definition msgBuffer : nat := 1000.

(** Program points of one goroutine running [run]. *)
Inductive worker :=
  | AtRecv                                        (* at [msg := <-s.messages] *)
  | AtLock (msg : string)                         (* at [s.mu.Lock()] *)
  | InRange (msg : string) (pending : list (Z * nat)). (* in the range loop, lock held *)

(** [fanOut] maps an identifier to a reference into [heap], the channels
    made so far; two keys can share a channel only by sharing a reference. *)
Record server := Server {
  bearer : string;
  messages : chan;
  fanOut : gmap Z nat;
  mu : bool;
  heap : list chan;
  workers : list worker
}.

Definition set_messages (q : chan) (s : server) : server :=
  Server (bearer s) q (fanOut s) (mu s) (heap s) (workers s).
Definition set_fanOut (f : gmap Z nat) (s : server) : server :=
  Server (bearer s) (messages s) f (mu s) (heap s) (workers s).
Definition set_mu (b : bool) (s : server) : server :=
  Server (bearer s) (messages s) (fanOut s) b (heap s) (workers s).
Definition set_heap (h : list chan) (s : server) : server :=
  Server (bearer s) (messages s) (fanOut s) (mu s) h (workers s).
Definition set_workers (ws : list worker) (s : server) : server :=
  Server (bearer s) (messages s) (fanOut s) (mu s) (heap s) ws.

(** The server built by [run] in [main.go]. *)
Definition new_server (token : string) : server :=
  Server token (make msgBuffer) ∅ false [] [].

Definition Lock (s : server) : option server :=
  if mu s then None else Some (set_mu true s).

Definition Unlock (s : server) : server := set_mu false s.

(** *** Listener registry *)

(** [now] is the reading of [time.Now().UnixNano()]. *)
Definition addListener (now : Z) (s : server) : option (Z * nat * server) :=
  s1 ← Lock s;
  let idx := now in
  let ch := length (heap s1) in
  let s2 := set_heap (heap s1 ++ [make msgBuffer]) s1 in
  let s3 := set_fanOut (<[idx := ch]> (fanOut s2)) s2 in
  Some (idx, ch, Unlock s3).

(** The result is the channel, or [None] for Go's nil channel. *)
Definition getListener (idx : Z) (s : server) : option (option nat) :=
  s1 ← Lock s;
  Some (fanOut s1 !! idx).

Definition removeListener (idx : Z) (s : server) : option server :=
  s1 ← Lock s;
  Some (Unlock (set_fanOut (delete idx (fanOut s1)) s1)).

(** *** Broadcast loop *)

(** [go s.run()] *)
Definition go_run (s : server) : server := set_workers (workers s ++ [AtRecv]) s.

(** One step of worker [i].  Go visits the entries of a map in an
    unspecified order: [pick] names the pending entry visited next. *)
Definition run (i pick : nat) (s : server) : option server :=
  w ← workers s !! i;
  match w with
  | AtRecv =>
      '(msg, q) ← recv (messages s);
      Some (set_workers (<[i := AtLock msg]> (workers s)) (set_messages q s))
  | AtLock msg =>
      s1 ← Lock s;
      Some (set_workers (<[i := InRange msg (map_to_list (fanOut s1))]> (workers s1)) s1)
  | InRange msg [] =>
      Some (set_workers (<[i := AtRecv]> (workers s)) (Unlock s))
  | InRange msg pending =>
      '(idx, ch) ← pending !! pick;
      c ← heap s !! ch;
      c' ← send msg c;
      Some (set_workers (<[i := InRange msg (delete pick pending)]> (workers s))
              (set_heap (<[ch := c']> (heap s)) s))
  end.

(** *** Requests and responses *)

Record Cookie := { Name : string; Value : string }.

Inductive error := ErrNoCookie | ErrOther.

Record Request := {
  Method : string;
  Path : string;
  Cookies : list Cookie;
  Authorization : option string;
  Body : option string           (* [None]: reading the body fails *)
}.

(** [r.Cookie(name)]: the first cookie of that name, or [ErrNoCookie]. *)
Definition Request_Cookie (r : Request) (name : string) : option Cookie * option error :=
  match List.find (fun c => String.eqb (Name c) name) (Cookies r) with
  | Some c => (Some c, None)
  | None => (None, Some ErrNoCookie)
  end.

(** [r.Header.Get("Authorization")] *)
Definition Header_Get_Authorization (r : Request) : string :=
  match Authorization r with Some v => v | None => "" end.

Definition StatusOK : nat := 200.
Definition StatusBadRequest : nat := 400.
Definition StatusUnauthorized : nat := 401.
Definition StatusMethodNotAllowed : nat := 405.
Definition StatusInternalServerError : nat := 500.

Record ResponseWriter := Response {
  code : option nat;            (* set by [WriteHeader] *)
  setCookie : option Cookie;
  contentType : option string;
  wroteIndex : bool             (* [w.Write(indexHtml)] *)
}.

Definition new_response : ResponseWriter := Response None None None false.

Definition WriteHeader (c : nat) (w : ResponseWriter) : ResponseWriter :=
  match code w with
  | Some _ => w
  | None => Response (Some c) (setCookie w) (contentType w) (wroteIndex w)
  end.
Definition SetCookie (c : Cookie) (w : ResponseWriter) : ResponseWriter :=
  Response (code w) (Some c) (contentType w) (wroteIndex w).
Definition Header_Set_ContentType (v : string) (w : ResponseWriter) : ResponseWriter :=
  Response (code w) (setCookie w) (Some v) (wroteIndex w).
Definition Write_indexHtml (w : ResponseWriter) : ResponseWriter :=
  Response (code w) (setCookie w) (contentType w) true.

(** The status the client sees: net/http sends 200 when the handler
    returns without [WriteHeader]. *)
Definition status (w : ResponseWriter) : nat :=
  match code w with Some c => c | None => StatusOK end.

Definition parseCookie (cookie : option Cookie) : Z :=
  match cookie with
  | None => 0
  | Some c =>
      match ParseInt (Value c) with
      | None => 0
      | Some idx => idx
      end
  end.

(** *** Handlers *)

Definition serveIndex (now : Z) (r : Request) (w : ResponseWriter) (s : server)
  : option (ResponseWriter * server) :=
  if negb (String.eqb (Method r) "GET") then
    Some (WriteHeader StatusMethodNotAllowed w, s)
  else
    let '(cookie, err) := Request_Cookie r "idx" in
    err ← match err with
          | None =>
              ch ← getListener (parseCookie cookie) s;
              Some (match ch with None => Some ErrNoCookie | Some _ => None end)
          | Some e => Some (Some e)
          end;
    let page w := Write_indexHtml (WriteHeader StatusOK (Header_Set_ContentType "text/html" w)) in
    match err with
    | Some ErrNoCookie =>
        '(idx, _, s1) ← addListener now s;
        Some (page (SetCookie {| Name := "idx"; Value := FormatInt idx |} w), s1)
    | Some _ => Some (WriteHeader StatusInternalServerError w, s)
    | None => Some (page w, s)
    end.

(** The test of the [if] that guards the 401 reply. *)
Definition bearer_mismatch (auth token : string) : bool :=
  let parts := SplitN2 auth in
  negb (length parts =? 2)%nat
  || negb (String.eqb (ToLower (nth 0 parts "")) "bearer")
  || negb (String.eqb (nth 1 parts "") token).

Definition webhookReceiver (r : Request) (w : ResponseWriter) (s : server)
  : option (ResponseWriter * server) :=
  if negb (String.eqb (Method r) "POST") then
    Some (WriteHeader StatusMethodNotAllowed w, s)
  else if negb (String.eqb (bearer s) "")
          && bearer_mismatch (Header_Get_Authorization r) (bearer s) then
    Some (WriteHeader StatusUnauthorized w, s)
  else
    match Body r with
    | None => Some (WriteHeader StatusInternalServerError w, s)
    | Some body =>
        q ← send body (messages s);
        Some (w, set_messages q s)
    end.

(** The websocket connection of one subscriber. *)
Record Conn := { conn_open : bool; frames : list string }.

Definition Conn_Close (c : Conn) : Conn :=
  {| conn_open := false; frames := frames c |}.

(** [push]: [ok] is whether the three writes on the connection succeed. *)
Definition push (ok : bool) (conn : Conn) (msg : string) : Conn * option error :=
  if ok then ({| conn_open := conn_open conn; frames := frames conn ++ [msg] |}, None)
  else (conn, Some ErrOther).

(** Program points of [logOutput] once the connection is upgraded: in the
    [range ch] loop, in the deferred function after [conn.Close()], and
    returned. *)
Definition StatusSwitchingProtocols : nat := 101.

Inductive pc := Streaming | Removing | Returned.

Record session := Session { s_idx : Z; s_ch : nat; s_conn : Conn; s_pc : pc }.

(** The outcome of [upgrader.Upgrade].  On success the upgrader answers
    101 itself; when it refuses the handshake it has already replied,
    through the writer, with a status of its own (400, 403, ...) by the
    time it returns the error. *)
Inductive upgrade := Upgraded | Refused (c : nat).

(** [logOutput] up to the upgrade, [upgrade_ok] being the outcome of
    [upgrader.Upgrade].  After a refusal the handler's [WriteHeader] comes
    second and changes nothing. *)
Definition logOutput (upgrade_ok : upgrade) (r : Request) (w : ResponseWriter) (s : server)
  : option (ResponseWriter * server * option session) :=
  if negb (String.eqb (Method r) "GET") then
    Some (WriteHeader StatusMethodNotAllowed w, s, None)
  else
    let '(cookie, err) := Request_Cookie r "idx" in
    let idx := match err with None => parseCookie cookie | Some _ => 0 end in
    let err := match err with
               | None => if idx =? 0 then Some ErrNoCookie else None
               | Some e => Some e
               end in
    match err with
    | Some ErrNoCookie => Some (WriteHeader StatusUnauthorized w, s, None)
    | Some _ => Some (WriteHeader StatusInternalServerError w, s, None)
    | None =>
        ch ← getListener idx s;
        match ch with
        | None => Some (WriteHeader StatusBadRequest w, s, None)
        | Some ch =>
            match upgrade_ok with
            | Upgraded =>
                Some (WriteHeader StatusSwitchingProtocols w, s,
                      Some (Session idx ch {| conn_open := true; frames := [] |} Streaming))
            | Refused c =>
                Some (WriteHeader StatusInternalServerError (WriteHeader c w), s, None)
            end
        end
    end.

(** One step of [logOutput] after the upgrade: an iteration of the
    delivery loop, or the deferred call of [removeListener]. *)
Definition logOutput_step (push_ok : bool) (ss : session) (s : server)
  : option (session * server) :=
  match s_pc ss with
  | Streaming =>
      c ← heap s !! s_ch ss;
      match recv c with
      | Some (msg, c') =>
          let s1 := set_heap (<[s_ch ss := c']> (heap s)) s in
          match push push_ok (s_conn ss) msg with
          | (conn, None) => Some (Session (s_idx ss) (s_ch ss) conn Streaming, s1)
          | (conn, Some _) =>
              Some (Session (s_idx ss) (s_ch ss) (Conn_Close conn) Removing, s1)
          end
      | None =>
          if drained c then
            Some (Session (s_idx ss) (s_ch ss) (Conn_Close (s_conn ss)) Removing, s)
          else None
      end
  | Removing =>
      s1 ← removeListener (s_idx ss) s;
      Some (Session (s_idx ss) (s_ch ss) (s_conn ss) Returned, s1)
  | Returned => None
  end.

Definition ServeHTTP (now : Z) (upgrade_ok : upgrade) (r : Request)
    (w : ResponseWriter) (s : server)
  : option (ResponseWriter * server * option session) :=
  let s := go_run s in
  if String.eqb (Path r) "/" then
    '(w1, s1) ← serveIndex now r w s; Some (w1, s1, None)
  else if String.eqb (Path r) "/logs" then
    logOutput upgrade_ok r w s
  else if String.eqb (Path r) "/webhook" then
    '(w1, s1) ← webhookReceiver r w s; Some (w1, s1, None)
  else Some (w, s, None).

(** ** The running system *)

(** What can happen next: a request is served (up to the upgrade for
    [/logs]), a broadcast worker takes a step, or an upgraded subscriber
    connection takes a step.  A request is served in one piece, at a time
    when none of its operations would block; the critical sections of a
    handler are not interleaved with other goroutines here. *)
Inductive event :=
  | EvServe (now : Z) (upgrade_ok : upgrade) (r : Request)
  | EvRun (i pick : nat)
  | EvStream (k : nat) (push_ok : bool).

Record world := World {
  srv : server;
  sessions : list session;
  replies : list ResponseWriter
}.

Definition new_world (token : string) : world := World (new_server token) [] [].

Definition step (e : event) (x : world) : option world :=
  match e with
  | EvServe now upgrade_ok r =>
      '(w, s, ss) ← ServeHTTP now upgrade_ok r new_response (srv x);
      Some (World s (sessions x ++ match ss with Some n => [n] | None => [] end)
              (replies x ++ [w]))
  | EvRun i pick =>
      s ← run i pick (srv x);
      Some (World s (sessions x) (replies x))
  | EvStream k push_ok =>
      ss ← sessions x !! k;
      '(ss', s) ← logOutput_step push_ok ss (srv x);
      Some (World s (<[k := ss']> (sessions x)) (replies x))
  end.

Fixpoint exec (es : list event) (x : world) : option world :=
  match es with
  | [] => Some x
  | e :: es' => x' ← step e x; exec es' x'
  end.

(** Worker [i] alone takes the steps [picks]. *)
Fixpoint run_steps (i : nat) (picks : list nat) (s : server) : option server :=
  match picks with
  | [] => Some s
  | p :: picks' => s' ← run i p s; run_steps i picks' s'
  end.
(** The four moves of a worker, as a relation: what [run] computes. *)
Inductive run_rel (i pick : nat) (s : server) : server → Prop :=
  | run_receive m q :
      workers s !! i = Some AtRecv →
      buf (messages s) = m :: q →
      run_rel i pick s
        (Server (bearer s) (Chan q (cap (messages s)) (closed (messages s)))
           (fanOut s) (mu s) (heap s) (<[i := AtLock m]> (workers s)))
  | run_lock m :
      workers s !! i = Some (AtLock m) →
      mu s = false →
      run_rel i pick s
        (Server (bearer s) (messages s) (fanOut s) true (heap s)
           (<[i := InRange m (map_to_list (fanOut s))]> (workers s)))
  | run_forward m pending idx ch c :
      workers s !! i = Some (InRange m pending) →
      pending !! pick = Some (idx, ch) →
      heap s !! ch = Some c →
      closed c = false →
      (length (buf c) < cap c)%nat →
      run_rel i pick s
        (Server (bearer s) (messages s) (fanOut s) (mu s)
           (<[ch := Chan (buf c ++ [m]) (cap c) false]> (heap s))
           (<[i := InRange m (delete pick pending)]> (workers s)))
  | run_unlock m :
      workers s !! i = Some (InRange m []) →
      run_rel i pick s
        (Server (bearer s) (messages s) (fanOut s) false (heap s)
           (<[i := AtRecv]> (workers s))).

(** ** Invariants of the server state *)

(** Registered references point into the heap, and no two identifiers
    share a channel. *)
Definition registry_ok (s : server) : Prop :=
  (∀ idx ch, fanOut s !! idx = Some ch → (ch < length (heap s))%nat) ∧
  (∀ i j ch, fanOut s !! i = Some ch → fanOut s !! j = Some ch → i = j).

Definition holds_lock (w : worker) : bool :=
  match w with InRange _ _ => true | _ => false end.

(** What is left to visit is a duplicate-free part of the registry. *)
Definition pending_ok (s : server) (w : worker) : Prop :=
  match w with
  | InRange _ pending =>
      NoDup pending ∧ ∀ idx ch, (idx, ch) ∈ pending → fanOut s !! idx = Some ch
  | _ => True
  end.

(** Between steps the mutex is held exactly by the worker inside its
    range loop, and by one worker at most. *)
Definition lock_ok (s : server) : Prop :=
  (∀ i w, workers s !! i = Some w → holds_lock w = true → mu s = true) ∧
  (∀ i j wi wj, workers s !! i = Some wi → workers s !! j = Some wj →
                holds_lock wi = true → holds_lock wj = true → i = j).

Definition chan_ok (c : chan) : Prop := closed c = false ∧ cap c = msgBuffer.

Definition wf (s : server) : Prop :=
  registry_ok s ∧
  (∀ i w, workers s !! i = Some w → pending_ok s w) ∧
  lock_ok s ∧
  chan_ok (messages s) ∧ (∀ ch c, heap s !! ch = Some c → chan_ok c).

(** Worlds reached from a fresh server. *)
Definition reachable (x : world) : Prop :=
  ∃ token es, exec es (new_world token) = Some x.

(** The buffer of channel [ch]. *)
Definition queue (s : server) (ch : nat) : list string :=
  match heap s !! ch with Some c => buf c | None => [] end.

(** Free slots of channel [ch]. *)
Definition room (s : server) (ch : nat) : nat :=
  match heap s !! ch with Some c => cap c - length (buf c) | None => 0 end.

Definition is_serve (e : event) : bool :=
  match e with EvServe _ _ _ => true | _ => false end.

(** Number of requests served in a trace. *)
Definition count_serve (es : list event) : nat := length (List.filter is_serve es).

(** Bookkeeping for worker [i] running alone from [s0]: [sent] are the
    messages it has fanned out completely; the message in hand has
    reached the registered channels that are no longer pending. *)
Definition fanned (s0 s : server) (i : nat) (sent : list string) : Prop :=
  fanOut s = fanOut s0 ∧
  match workers s !! i with
  | Some AtRecv =>
      buf (messages s0) = (sent ++ buf (messages s))%list ∧
      ∀ idx ch, fanOut s0 !! idx = Some ch → queue s ch = (queue s0 ch ++ sent)%list
  | Some (AtLock m) =>
      buf (messages s0) = (sent ++ m :: buf (messages s))%list ∧
      ∀ idx ch, fanOut s0 !! idx = Some ch → queue s ch = (queue s0 ch ++ sent)%list
  | Some (InRange m pending) =>
      buf (messages s0) = (sent ++ m :: buf (messages s))%list ∧
      ∀ idx ch, fanOut s0 !! idx = Some ch →
        queue s ch =
        (queue s0 ch ++ sent ++ if decide ((idx, ch) ∈ pending) then [] else [m])%list
  | None => False
  end.


(** The header the specification asks for: a scheme word equal to
    "bearer" up to letter case, one space, the configured token. *)
Definition authorized_header (auth token : string) : Prop :=
  ∃ scheme, ToLower scheme = "bearer" ∧ auth = (scheme ++ " " ++ token)%string.

Fixpoint has_space (s : string) : bool :=
  match s with
  | EmptyString => false
  | String c rest => Ascii.eqb c " "%char || has_space rest
  end.

(** ** Decimal notation, as the specification speaks of it *)

Fixpoint all_digits (s : string) : bool :=
  match s with
  | EmptyString => true
  | String c rest => is_digit c && all_digits rest
  end.

(** The number written by the digits [s] after the digits read so far,
    whose value is [n]. *)
Fixpoint digits_value (s : string) (n : Z) : Z :=
  match s with
  | EmptyString => n
  | String c rest => digits_value rest (n * 10 + digit_val c)
  end.

(** [v] is the decimal notation of the 64-bit signed integer [z]: an
    optional sign, then one digit or more. *)
Definition decimal_int64 (v : string) (z : Z) : Prop :=
  ∃ sign ds,
    v = (sign ++ ds)%string ∧
    (sign = "" ∨ sign = "+" ∨ sign = "-") ∧
    ds ≠ "" ∧ all_digits ds = true ∧
    z = (if String.eqb sign "-" then - digits_value ds 0 else digits_value ds 0) ∧
    - 2 ^ 63 ≤ z < 2 ^ 63.

(** ** A sample run: two browsers open the entry page, then two webhooks arrive *)

Definition get_request (path : string) (cookies : list Cookie) : Request :=
  {| Method := "GET"; Path := path; Cookies := cookies;
     Authorization := None; Body := Some "" |}.

Definition post_webhook (auth : option string) (body : string) : Request :=
  {| Method := "POST"; Path := "/webhook"; Cookies := [];
     Authorization := auth; Body := Some body |}.

Definition demo_events : list event :=
  [EvServe 101 (Refused 400) (get_request "/" []);
   EvServe 102 (Refused 400) (get_request "/" []);
   EvServe 0 (Refused 400) (post_webhook None "a");
   EvServe 0 (Refused 400) (post_webhook None "b")].

Definition demo : world :=
  match exec demo_events (new_world "") with
  | Some x => x
  | None => new_world ""
  end.

(** Two workers, each holding one of the two webhooks of the sample run. *)
Definition demo_two_holders : list event := [EvRun 0 0; EvRun 1 0].

(** Worker 1 fans out the second webhook before worker 0 fans out the first. *)
Definition demo_overtake : list event :=
  [EvRun 0 0; EvRun 1 0;
   EvRun 1 0; EvRun 1 0; EvRun 1 0; EvRun 1 0;
   EvRun 0 0; EvRun 0 0; EvRun 0 0; EvRun 0 0].

(** A browser opens the entry page and the stream, a webhook is fanned
    out, and the push of that message fails. *)
Definition idx_cookie (v : string) : Cookie := {| Name := "idx"; Value := v |}.

Definition demo_disconnect : list event :=
  [EvServe 101 (Refused 400) (get_request "/" []);
   EvServe 0 Upgraded (get_request "/logs" [idx_cookie "101"]);
   EvServe 0 (Refused 400) (post_webhook None "a");
   EvRun 0 0; EvRun 0 0; EvRun 0 0; EvRun 0 0;
   EvStream 0 false;
   EvStream 0 true].

(** The steps [pushes] of one upgraded [logOutput], one after the other. *)
Fixpoint logOutput_steps (pushes : list bool) (ss : session) (s : server)
  : option (session * server) :=
  match pushes with
  | [] => Some (ss, s)
  | p :: pushes' =>
      '(ss', s') ← logOutput_step p ss s;
      logOutput_steps pushes' ss' s'
  end.

(** [webhookReceiver] as it was before the bearer token was introduced
    ([main.go]): the method check, the body, the send. *)
Definition webhookReceiver_v1 (r : Request) (w : ResponseWriter) (s : server)
  : option (ResponseWriter * server) :=
  if negb (String.eqb (Method r) "POST") then
    Some (WriteHeader StatusMethodNotAllowed w, s)
  else
    match Body r with
    | None => Some (WriteHeader StatusInternalServerError w, s)
    | Some body =>
        q ← send body (messages s);
        Some (w, set_messages q s)
    end.

(** No channel holds more than its capacity. *)
Definition bounded (s : server) : Prop :=
  (length (buf (messages s)) ≤ cap (messages s))%nat ∧
  ∀ ch c, heap s !! ch = Some c → (length (buf c) ≤ cap c)%nat.

(** Some worker is inside its range loop. *)
Definition fanning_out (s : server) : Prop :=
  ∃ i m pending, workers s !! i = Some (InRange m pending).

(** A server stuck in a fan-out: one subscriber queue, full, and the
    worker about to send to it. *)
Definition stalled_server : server :=
  Server "" (make msgBuffer) {[101 := 0%nat]} true
    [Chan (replicate msgBuffer "x") msgBuffer false]
    [InRange "m" [(101, 0%nat)]].

(** The message a worker has in hand. *)
Definition hand (w : worker) : option string :=
  match w with
  | AtRecv => None
  | AtLock m => Some m
  | InRange m _ => Some m
  end.

(** Message [m] is somewhere in the system: in the inbound queue, in a
    subscriber queue, in the hand of a worker, or in a frame that was
    pushed to a subscriber. *)
Inductive carries (x : world) (m : string) : Prop :=
  | in_inbound : m ∈ buf (messages (srv x)) → carries x m
  | in_queue ch c : heap (srv x) !! ch = Some c → m ∈ buf c → carries x m
  | in_hand i w : workers (srv x) !! i = Some w → hand w = Some m → carries x m
  | in_frames k ss : sessions x !! k = Some ss → m ∈ frames (s_conn ss) → carries x m.

(** The event is a GET to [/] served at clock reading [idx]. *)
Definition index_request (e : event) (idx : Z) : Prop :=
  ∃ upgrade_ok r, e = EvServe idx upgrade_ok r ∧ Path r = "/" ∧ Method r = "GET".

(** The event is a POST to [/webhook] with body [m]. *)
Definition webhook_request (e : event) (m : string) : Prop :=
  ∃ now upgrade_ok r,
    e = EvServe now upgrade_ok r ∧ Path r = "/webhook" ∧ Method r = "POST" ∧
    Body r = Some m.

(** A browser opens the entry page and the stream, a webhook is fanned
    out and pushed to it. *)
Definition demo_deliver : list event :=
  [EvServe 101 (Refused 400) (get_request "/" []);
   EvServe 0 Upgraded (get_request "/logs" [idx_cookie "101"]);
   EvServe 0 (Refused 400) (post_webhook None "a");
   EvRun 0 0; EvRun 0 0; EvRun 0 0; EvRun 0 0;
   EvStream 0 true].

(** One webhook published and fanned out by worker 0, [n] times over. *)
Definition fill_events (n : nat) : list event :=
  concat (replicate n [EvServe 0 (Refused 400) (post_webhook None "m");
                       EvRun 0 0; EvRun 0 0; EvRun 0 0; EvRun 0 0]).

(** A browser opens the entry page and the stream; a push fails, so its
    handler leaves the delivery loop; before the handler gets to
    [removeListener], a thousand webhooks fill its queue, and the worker
    takes the lock for one more. *)
Definition stuck_events : list event :=
  ([EvServe 101 (Refused 400) (get_request "/" []);
    EvServe 0 Upgraded (get_request "/logs" [idx_cookie "101"])]
   ++ fill_events 1 ++ [EvStream 0 false] ++ fill_events msgBuffer
   ++ [EvServe 0 (Refused 400) (post_webhook None "z"); EvRun 0 0; EvRun 0 0])%list.

Definition stuck_world : world :=
  match exec stuck_events (new_world "") with
  | Some x => x
  | None => new_world ""
  end.

(** Handler [k], opened with [idx], has left its delivery loop and not
    yet removed its entry, while a worker is inside a fan-out in which
    every queue still to visit is full and has no handler in its delivery
    loop. *)
Definition stuck (x : world) (k : nat) (idx : Z) : Prop :=
  wf (srv x) ∧
  (∃ ss, sessions x !! k = Some ss ∧ s_pc ss = Removing ∧ s_idx ss = idx) ∧
  is_Some (fanOut (srv x) !! idx) ∧
  ∃ i m pending,
    workers (srv x) !! i = Some (InRange m pending) ∧ pending ≠ [] ∧
    ∀ idx' ch', (idx', ch') ∈ pending →
      room (srv x) ch' = 0%nat ∧
      ∀ k' ss', sessions x !! k' = Some ss' → s_ch ss' = ch' → s_pc ss' ≠ Streaming.

(** Steps of the workers, one after the other: [(i, pick)] is a step of
    worker [i]. *)
Fixpoint runs (sched : list (nat * nat)) (s : server) : option server :=
  match sched with
  | [] => Some s
  | (i, pick) :: sched' => s' ← run i pick s; runs sched' s'
  end.

(** Every worker is at the head of its loop, with no message in hand. *)
Definition idle (s : server) : Prop := Forall (λ w, w = AtRecv) (workers s).

(** Bookkeeping for the workers running together from [s0]: [sent] are
    the messages fanned out completely, in the order of their fan-outs;
    what was taken from the inbound queue is [sent] and what the workers
    have in hand; the message of the worker inside the range loop has
    reached the registered channels that are no longer pending. *)
Definition spread (s0 s : server) (sent : list string) : Prop :=
  fanOut s = fanOut s0 ∧
  (∃ taken, buf (messages s0) = (taken ++ buf (messages s))%list ∧
            taken ≡ₚ (sent ++ omap hand (workers s))%list) ∧
  (∀ i m pending, workers s !! i = Some (InRange m pending) →
     ∀ idx ch, fanOut s0 !! idx = Some ch →
       queue s ch =
       (queue s0 ch ++ sent ++ if decide ((idx, ch) ∈ pending) then [] else [m])%list) ∧
  ((∀ i w, workers s !! i = Some w → holds_lock w = false) →
     ∀ idx ch, fanOut s0 !! idx = Some ch → queue s ch = (queue s0 ch ++ sent)%list).

(** The schedule of [demo_overtake]. *)
Definition overtake_schedule : list (nat * nat) :=
  [(0, 0); (1, 0); (1, 0); (1, 0); (1, 0); (1, 0); (0, 0); (0, 0); (0, 0); (0, 0)]%nat.

Example ParseInt_ex1 : ParseInt "1730000000000000000" = Some 1730000000000000000.
Proof. reflexivity. Qed.
Example ParseInt_ex2 : ParseInt "-42" = Some (-42).
Proof. reflexivity. Qed.
Example ParseInt_ex3 : ParseInt "9223372036854775808" = None.
Proof. reflexivity. Qed.
Example ParseInt_ex4 : ParseInt "-9223372036854775808" = Some (- 2 ^ 63).
Proof. reflexivity. Qed.
Example ParseInt_ex5 : ParseInt "12a" = None /\ ParseInt "" = None /\ ParseInt "+" = None.
Proof. repeat split; reflexivity. Qed.
Example FormatInt_ex1 : FormatInt 1730000000000000000 = "1730000000000000000".
Proof. reflexivity. Qed.
Example FormatInt_ex2 : FormatInt (-42) = "-42" /\ FormatInt 0 = "0" /\ FormatInt 10 = "10".
Proof. repeat split; reflexivity. Qed.

(** ** The mutex and the registry operations *)

Lemma Lock_Some s s1 : Lock s = Some s1 ↔ mu s = false ∧ s1 = set_mu true s.
Proof.
  unfold Lock. destruct (mu s); split; try discriminate; try (intros [? ?]; discriminate).
  - intros [= <-]. done.
  - intros [_ ->]. done.
Qed.

Lemma Lock_None s : Lock s = None ↔ mu s = true.
Proof. unfold Lock. destruct (mu s); split; congruence. Qed.

Lemma addListener_Some now s idx ch s' :
  addListener now s = Some (idx, ch, s') ↔
  mu s = false ∧ idx = now ∧ ch = length (heap s) ∧
  s' = Server (bearer s) (messages s) (<[now := length (heap s)]> (fanOut s)) false
         (heap s ++ [make msgBuffer]) (workers s).
Proof.
  unfold addListener, Lock. destruct (mu s) eqn:Hmu; simpl.
  - split; [discriminate | intros [? _]; discriminate].
  - split.
    + intros [= <- <- <-]. done.
    + intros (_ & -> & -> & ->). done.
Qed.


Lemma getListener_Some idx s r :
  getListener idx s = Some r ↔ mu s = false ∧ r = fanOut s !! idx.
Proof.
  unfold getListener, Lock. destruct (mu s); simpl.
  - split; [discriminate | intros [? _]; discriminate].
  - split; [intros [= <-]; done | intros [_ ->]; done].
Qed.

Lemma getListener_unlocked idx s : mu s = false → getListener idx s = Some (fanOut s !! idx).
Proof. intros. by apply getListener_Some. Qed.

Lemma removeListener_Some idx s s' :
  removeListener idx s = Some s' ↔
  mu s = false ∧
  s' = Server (bearer s) (messages s) (delete idx (fanOut s)) false (heap s) (workers s).
Proof.
  unfold removeListener, Lock. destruct (mu s); simpl.
  - split; [discriminate | intros [? _]; discriminate].
  - split; [intros [= <-]; done | intros [_ ->]; done].
Qed.

(** ** Channels *)

Lemma send_Some m c c' :
  send m c = Some c' ↔
  closed c = false ∧ (length (buf c) < cap c)%nat ∧ c' = Chan (buf c ++ [m]) (cap c) false.
Proof.
  unfold send. destruct (closed c) eqn:Hc.
  - split; [discriminate | intros [? _]; discriminate].
  - destruct (Nat.ltb_spec (length (buf c)) (cap c)).
    + split; [intros [= <-]; done | intros (_ & _ & ->); done].
    + split; [discriminate | intros (_ & ? & _); lia].
Qed.

Lemma send_chan_ok m c c' : send m c = Some c' → chan_ok c → chan_ok c'.
Proof. intros (_ & _ & ->)%send_Some [? ?]. done. Qed.

Lemma recv_Some c m c' :
  recv c = Some (m, c') ↔ ∃ q, buf c = m :: q ∧ c' = Chan q (cap c) (closed c).
Proof.
  unfold recv. destruct (buf c) as [|m0 q].
  - split; [discriminate | intros (? & ? & _); discriminate].
  - split.
    + intros [= <- <-]. eauto.
    + intros (q' & [= <- <-] & ->). done.
Qed.

Lemma recv_chan_ok m c c' : recv c = Some (m, c') → chan_ok c → chan_ok c'.
Proof. intros (q & _ & ->)%recv_Some [? ?]. done. Qed.

(** ** The invariant holds in every reachable state *)

Lemma unlocked_no_holder s i w :
  lock_ok s → mu s = false → workers s !! i = Some w → holds_lock w = false.
Proof.
  intros [Hmu _] Hfree Hw. destruct (holds_lock w) eqn:Hh; [|done].
  specialize (Hmu _ _ Hw Hh). congruence.
Qed.

Lemma no_holder_pending_ok s w : holds_lock w = false → pending_ok s w.
Proof. by destruct w. Qed.

Lemma wf_new_server token : wf (new_server token).
Proof.
  unfold wf, registry_ok, lock_ok, chan_ok; simpl. repeat split; try done.
Qed.

Lemma wf_addListener now s idx ch s' :
  wf s → addListener now s = Some (idx, ch, s') → wf s'.
Proof.
  intros (Hreg & Hpend & Hlock & Hmsg & Hheap) (Hfree & -> & -> & ->)%addListener_Some.
  destruct Hreg as [Hbound Hinj].
  split; [split|split; [|split; [|split]]]; simpl.
  - intros idx ch. rewrite length_app. simpl. rewrite lookup_insert.
    case_decide; [intros [= <-]; lia|]. intros Hb%Hbound. lia.
  - intros i j ch. rewrite !lookup_insert.
    repeat case_decide; subst; try done.
    + intros [= <-] Hb%Hbound. lia.
    + intros Hb%Hbound [= <-]. lia.
    + apply Hinj.
  - intros i w Hw. apply no_holder_pending_ok. by eapply (unlocked_no_holder s).
  - split; simpl; [|apply Hlock].
    intros i w Hw Hh. by rewrite (unlocked_no_holder s i w) in Hh.
  - done.
  - intros ch c [Hc|[_ Hc]]%lookup_app_Some; [by eapply Hheap|].
    apply list_lookup_singleton_Some in Hc as [_ <-]. done.
Qed.

Lemma wf_removeListener idx s s' :
  wf s → removeListener idx s = Some s' → wf s'.
Proof.
  intros (Hreg & Hpend & Hlock & Hmsg & Hheap) (Hfree & ->)%removeListener_Some.
  destruct Hreg as [Hbound Hinj].
  split; [split|split; [|split; [|split]]]; simpl; try done.
  - intros i ch. rewrite lookup_delete_Some. intros [_ Hb]. by eapply Hbound.
  - intros i j ch. rewrite !lookup_delete_Some. intros [_ Hi] [_ Hj]. by eapply Hinj.
  - intros i w Hw. apply no_holder_pending_ok. by eapply (unlocked_no_holder s).
  - split; simpl; [|apply Hlock].
    intros i w Hw Hh. by rewrite (unlocked_no_holder s i w) in Hh.
Qed.

Lemma wf_go_run s : wf s → wf (go_run s).
Proof.
  intros (Hreg & Hpend & Hlock & Hmsg & Hheap).
  assert (Hnew : ∀ i w, (workers s ++ [AtRecv])%list !! i = Some w →
                        workers s !! i = Some w ∨ w = AtRecv).
  { intros i w [Hw|[_ Hw]]%lookup_app_Some; [by left|].
    apply list_lookup_singleton_Some in Hw as [_ <-]. by right. }
  split; [done|split; [|split; [|done]]]; simpl.
  - intros i w [Hw| ->]%Hnew; [by eapply Hpend|done].
  - destruct Hlock as [Hmu Huniq]. split; simpl.
    + intros i w [Hw| ->]%Hnew; [by eapply Hmu|done].
    + intros i j wi wj Hi Hj Hhi Hhj.
      apply lookup_app_Some in Hi as [Hi|[_ Hi]];
        [|apply list_lookup_singleton_Some in Hi as [_ <-]; done].
      apply lookup_app_Some in Hj as [Hj|[_ Hj]];
        [|apply list_lookup_singleton_Some in Hj as [_ <-]; done].
      by eapply Huniq.
Qed.

(** ** The broadcast worker, step by step *)

Lemma run_iff i pick s s' : run i pick s = Some s' ↔ run_rel i pick s s'.
Proof.
  split.
  - unfold run. destruct (workers s !! i) as [[|m|m [|e pending]]|] eqn:Hw; simpl; try done.
    + destruct (recv (messages s)) as [[m q]|] eqn:Hr; simpl; [|done].
      apply recv_Some in Hr as (q' & Hb & ->). intros [= <-].
      by apply (run_receive i pick s m q').
    + destruct (Lock s) as [s1|] eqn:Hl; simpl; [|done].
      apply Lock_Some in Hl as [Hfree ->]. intros [= <-].
      by apply (run_lock i pick s m).
    + intros [= <-]. by apply (run_unlock i pick s m).
    + destruct ((e :: pending) !! pick) as [[idx ch]|] eqn:Hp; simpl; [|done].
      destruct (heap s !! ch) as [c|] eqn:Hc; simpl; [|done].
      destruct (send m c) as [c'|] eqn:Hs; simpl; [|done].
      apply send_Some in Hs as (Hcl & Hlt & ->). intros [= <-].
      by apply (run_forward i pick s m (e :: pending) idx ch c).
  - intros [m q Hw Hb|m Hw Hfree|m pending idx ch c Hw Hp Hc Hcl Hlt|m Hw];
      unfold run; rewrite Hw; simpl.
    + unfold recv. rewrite Hb. done.
    + unfold Lock. rewrite Hfree. done.
    + destruct pending as [|e pending]; [done|].
      rewrite Hp. simpl. rewrite Hc. simpl.
      unfold send. rewrite Hcl.
      destruct (Nat.ltb_spec (length (buf c)) (cap c)); [done|lia].
    + done.
Qed.

Lemma wf_intro s :
  registry_ok s →
  (∀ i w, workers s !! i = Some w → pending_ok s w) →
  lock_ok s →
  chan_ok (messages s) →
  (∀ ch c, heap s !! ch = Some c → chan_ok c) →
  wf s.
Proof. unfold wf. tauto. Qed.

Lemma wf_run i pick s s' : wf s → run i pick s = Some s' → wf s'.
Proof.
  intros (Hreg & Hpend & Hlock & Hmsg & Hheap) Hrun%run_iff.
  destruct Hlock as [Hmu Huniq].
  destruct Hrun as [m q Hw Hb|m Hw Hfree|m pending idx ch c Hw Hp Hc Hcl Hlt|m Hw];
    apply wf_intro; simpl; try done.
  - intros j w [(<- & <- & _)|[_ Hj]]%list_lookup_insert_Some; [done|by eapply Hpend].
  - split; simpl.
    + intros j w [(<- & <- & _)|[_ Hj]]%list_lookup_insert_Some; [done|by eapply Hmu].
    + intros j k wj wk [(<- & <- & _)|[_ Hj]]%list_lookup_insert_Some; [done|].
      intros [(<- & <- & _)|[_ Hk]]%list_lookup_insert_Some; [done|].
      by eapply Huniq.
  - intros j w [(<- & <- & _)|[_ Hj]]%list_lookup_insert_Some.
    + split; [apply NoDup_map_to_list|]. intros idx ch. apply elem_of_map_to_list.
    + apply no_holder_pending_ok. by eapply (unlocked_no_holder s).
  - assert (Hno : ∀ j w, workers s !! j = Some w → holds_lock w = false).
    { intros j w Hj. by eapply (unlocked_no_holder s). }
    split; simpl; [done|].
    intros j k wj wk [(<- & <- & _)|[_ Hj]]%list_lookup_insert_Some
                     [(<- & <- & _)|[_ Hk]]%list_lookup_insert_Some Hhj Hhk; try done.
    + by rewrite (Hno _ _ Hk) in Hhk.
    + by rewrite (Hno _ _ Hj) in Hhj.
    + by rewrite (Hno _ _ Hj) in Hhj.
  - destruct Hreg as [Hbound Hinj]. split; simpl; [|done].
    intros idx' ch' Hf. rewrite length_insert. by eapply Hbound.
  - pose proof (Hpend _ _ Hw) as [Hnd Hsub].
    intros j w [(<- & <- & _)|[_ Hj]]%list_lookup_insert_Some.
    + split; [eapply sublist_NoDup; [done|apply sublist_delete]|].
      intros idx' ch' Hin%list_elem_of_delete_inv. by apply Hsub.
    + specialize (Hpend _ _ Hj). by destruct w.
  - split; simpl.
    + intros j w _ _. by eapply (Hmu i).
    + intros j k wj wk [(<- & <- & _)|[Hji Hj]]%list_lookup_insert_Some
                       [(<- & <- & _)|[Hki Hk]]%list_lookup_insert_Some Hhj Hhk; try done.
      * symmetry. by eapply (Huniq k i).
      * by eapply (Huniq j i).
      * by eapply Huniq.
  - intros ch' c' [(<- & <- & _)|[_ Hc']]%list_lookup_insert_Some; [|by eapply Hheap].
    destruct (Hheap _ _ Hc). by split.
  - assert (Hno : ∀ j w, j ≠ i → workers s !! j = Some w → holds_lock w = false).
    { intros j w Hne Hj. destruct (holds_lock w) eqn:Hh; [|done].
      destruct Hne. by eapply Huniq. }
    intros j w [(<- & <- & _)|[Hne Hj]]%list_lookup_insert_Some; [done|].
    apply no_holder_pending_ok. eapply Hno; [|done]. done.
  - assert (Hno : ∀ j w, j ≠ i → workers s !! j = Some w → holds_lock w = false).
    { intros j w Hne Hj. destruct (holds_lock w) eqn:Hh; [|done].
      destruct Hne. by eapply Huniq. }
    split; simpl.
    + intros j w [(<- & <- & _)|[Hne Hj]]%list_lookup_insert_Some Hh; [done|].
      rewrite (Hno j w) in Hh; done.
    + intros j k wj wk [(<- & <- & _)|[Hne Hj]]%list_lookup_insert_Some; [done|].
      intros _ Hh. rewrite (Hno j wj) in Hh; done.
Qed.

(** ** What each handler does to the server *)

Lemma serveIndex_server now r w s w' s' :
  serveIndex now r w s = Some (w', s') →
  s' = s ∨ ∃ ch, addListener now s = Some (now, ch, s').
Proof.
  unfold serveIndex. destruct (negb (Method r =? "GET")%string); [intros [= _ <-]; by left|].
  destruct (Request_Cookie r "idx") as [cookie [e|]]; simpl.
  - destruct e.
    + destruct (addListener now s) as [[[idx ch] s1]|] eqn:Ha; simpl; [|done].
      intros [= _ <-]. right. exists ch.
      by apply addListener_Some in Ha as (? & -> & ? & ?).
    + intros [= _ <-]. by left.
  - destruct (getListener (parseCookie cookie) s) as [[ch|]|]; simpl; try done.
    + intros [= _ <-]. by left.
    + destruct (addListener now s) as [[[idx ch] s1]|] eqn:Ha; simpl; [|done].
      intros [= _ <-]. right. exists ch.
      by apply addListener_Some in Ha as (? & -> & ? & ?).
Qed.

Lemma webhookReceiver_server r w s w' s' :
  webhookReceiver r w s = Some (w', s') →
  s' = s ∨ ∃ body q, Body r = Some body ∧ send body (messages s) = Some q ∧
                     s' = set_messages q s.
Proof.
  unfold webhookReceiver.
  destruct (negb (Method r =? "POST")%string); [intros [= _ <-]; by left|].
  destruct (negb (bearer s =? "")%string && _); [intros [= _ <-]; by left|].
  destruct (Body r) as [body|]; [|intros [= _ <-]; by left].
  destruct (send body (messages s)) as [q|] eqn:Hs; simpl; [|done].
  intros [= _ <-]. right. eauto.
Qed.

Lemma logOutput_server upgrade_ok r w s w' s' ss :
  logOutput upgrade_ok r w s = Some (w', s', ss) → s' = s.
Proof.
  unfold logOutput.
  destruct (negb (Method r =? "GET")%string); [by intros [= _ <- _]|].
  destruct (Request_Cookie r "idx") as [cookie [e|]]; simpl.
  - destruct e; by intros [= _ <- _].
  - destruct (parseCookie cookie =? 0); [by intros [= _ <- _]|].
    destruct (getListener (parseCookie cookie) s) as [[ch|]|]; simpl; try done.
    + destruct upgrade_ok; by intros [= _ <- _].
    + by intros [= _ <- _].
Qed.

Lemma wf_set_messages q s : wf s → chan_ok q → wf (set_messages q s).
Proof. intros (? & ? & ? & ? & ?) ?. by apply wf_intro. Qed.

Lemma wf_serveIndex now r w s w' s' :
  wf s → serveIndex now r w s = Some (w', s') → wf s'.
Proof.
  intros Hwf [->|[ch Ha]]%serveIndex_server; [done|]. by eapply wf_addListener.
Qed.

Lemma wf_webhookReceiver r w s w' s' :
  wf s → webhookReceiver r w s = Some (w', s') → wf s'.
Proof.
  intros Hwf [->|(body & q & _ & Hs & ->)]%webhookReceiver_server; [done|].
  apply wf_set_messages; [done|]. eapply send_chan_ok; [done|]. apply Hwf.
Qed.

Lemma wf_ServeHTTP now upgrade_ok r w s w' s' ss :
  wf s → ServeHTTP now upgrade_ok r w s = Some (w', s', ss) → wf s'.
Proof.
  intros Hwf%wf_go_run. unfold ServeHTTP.
  destruct (Path r =? "/")%string.
  { destruct (serveIndex _ _ _ _) as [[w1 s1]|] eqn:Hs; simpl; [|done].
    intros [= _ <- _]. by eapply wf_serveIndex. }
  destruct (Path r =? "/logs")%string.
  { intros ->%logOutput_server. done. }
  destruct (Path r =? "/webhook")%string.
  { destruct (webhookReceiver _ _ _) as [[w1 s1]|] eqn:Hs; simpl; [|done].
    intros [= _ <- _]. by eapply wf_webhookReceiver. }
  by intros [= _ <- _].
Qed.

Lemma wf_logOutput_step push_ok ss s ss' s' :
  wf s → logOutput_step push_ok ss s = Some (ss', s') → wf s'.
Proof.
  intros Hwf. unfold logOutput_step. destruct (s_pc ss); [| |done].
  - destruct (heap s !! s_ch ss) as [c|] eqn:Hc; simpl; [|done].
    destruct (recv c) as [[msg c']|] eqn:Hr.
    + assert (wf (set_heap (<[s_ch ss := c']> (heap s)) s)) as Hwf'.
      { destruct Hwf as ([Hbound Hinj] & Hpend & Hlock & Hmsg & Hheap).
        apply wf_intro; simpl; try done.
        - split; simpl; [|done]. intros idx ch Hf. rewrite length_insert. by eapply Hbound.
        - intros ch c0 [(<- & <- & _)|[_ Hc0]]%list_lookup_insert_Some; [|by eapply Hheap].
          eapply recv_chan_ok; [done|]. by eapply Hheap. }
      destruct (push push_ok (s_conn ss) msg) as [conn [e|]]; by intros [= _ <-].
    + destruct (drained c); [|done]. by intros [= _ <-].
  - destruct (removeListener (s_idx ss) s) as [s1|] eqn:Hrm; simpl; [|done].
    intros [= _ <-]. by eapply wf_removeListener.
Qed.

Lemma wf_step e x x' : wf (srv x) → step e x = Some x' → wf (srv x').
Proof.
  intros Hwf. destruct e as [now upgrade_ok r|i pick|k push_ok]; simpl.
  - destruct (ServeHTTP _ _ _ _ _) as [[[w s] ss]|] eqn:Hs; simpl; [|done].
    intros [= <-]. simpl. by eapply wf_ServeHTTP.
  - destruct (run i pick (srv x)) as [s|] eqn:Hr; simpl; [|done].
    intros [= <-]. simpl. by eapply wf_run.
  - destruct (sessions x !! k) as [ss|]; simpl; [|done].
    destruct (logOutput_step _ _ _) as [[ss' s]|] eqn:Hs; simpl; [|done].
    intros [= <-]. simpl. by eapply wf_logOutput_step.
Qed.

Lemma wf_exec es x x' : wf (srv x) → exec es x = Some x' → wf (srv x').
Proof.
  revert x. induction es as [|e es IH]; intros x Hwf; simpl.
  - by intros [= <-].
  - destruct (step e x) as [x1|] eqn:Hs; simpl; [|done].
    apply IH. by eapply wf_step.
Qed.

Lemma reachable_wf x : reachable x → wf (srv x).
Proof. intros (token & es & Hex). eapply wf_exec; [|done]. apply wf_new_server. Qed.

(** ** Fan-out by one worker *)

Lemma NoDup_lookup_not_in_delete {A} (l : list A) k x :
  NoDup l → l !! k = Some x → x ∉ delete k l.
Proof.
  intros Hnd Hk. rewrite delete_take_drop.
  rewrite <- (take_drop_middle l k x Hk) in Hnd.
  apply NoDup_app in Hnd as (_ & Hdisj & Hnd2).
  apply NoDup_cons in Hnd2 as [Hx _].
  intros [Hin|Hin]%elem_of_app; [|done].
  eapply Hdisj; [done|]. left.
Qed.

Lemma elem_of_delete_other {A} (l : list A) k x y :
  l !! k = Some y → x ≠ y → x ∈ delete k l ↔ x ∈ l.
Proof.
  intros Hk Hne. rewrite delete_take_drop.
  pose proof (take_drop_middle l k y Hk) as Hmid.
  rewrite <- Hmid at 3.
  rewrite !elem_of_app, elem_of_cons.
  split; [intros [?|?]; auto | intros [?|[?|?]]; [auto|done|auto]].
Qed.

Lemma queue_insert_eq s ch c :
  (ch < length (heap s))%nat → queue (set_heap (<[ch := c]> (heap s)) s) ch = buf c.
Proof. intros Hlt. unfold queue. simpl. by rewrite list_lookup_insert_eq. Qed.

Lemma queue_insert_ne s ch ch' c :
  ch ≠ ch' → queue (set_heap (<[ch := c]> (heap s)) s) ch' = queue s ch'.
Proof. intros Hne. unfold queue. simpl. by rewrite list_lookup_insert_ne. Qed.

Lemma fanned_start s i : workers s !! i = Some AtRecv → fanned s s i [].
Proof.
  intros Hw. unfold fanned. rewrite Hw. split; [done|]. split; [done|].
  intros idx ch _. by rewrite app_nil_r.
Qed.

Lemma fanned_run s0 s s' i pick sent :
  wf s → fanned s0 s i sent → run i pick s = Some s' →
  ∃ sent', fanned s0 s' i sent'.
Proof.
  intros (Hreg & Hpend & _) [Hfan Hst] Hrun%run_iff.
  destruct Hreg as [Hbound Hinj].
  destruct Hrun as [m q Hw Hb|m Hw Hfree|m pending idx0 ch0 c Hw Hp Hc Hcl Hlt|m Hw];
    rewrite Hw in Hst; destruct Hst as [Hmsgs Hq];
    assert (i < length (workers s))%nat as Hi by (by eapply lookup_lt_Some).
  - exists sent. split; [done|]. simpl. rewrite list_lookup_insert_eq by done.
    split; [by rewrite Hmsgs, Hb|]. done.
  - exists sent. split; [done|]. simpl. rewrite list_lookup_insert_eq by done.
    split; [done|]. intros idx ch Hf. rewrite decide_True.
    + rewrite app_nil_r. by eapply Hq.
    + apply elem_of_map_to_list. by rewrite Hfan.
  - exists sent. split; [done|]. simpl. rewrite list_lookup_insert_eq by done.
    split; [done|]. intros idx ch Hf.
    pose proof (Hpend _ _ Hw) as [Hnd Hsub].
    assert ((idx0, ch0) ∈ pending) as Hin0 by (apply list_elem_of_lookup; eauto).
    pose proof (Hsub _ _ Hin0) as Hf0.
    destruct (decide (ch = ch0)) as [->|Hne].
    + assert (idx = idx0) as -> by (eapply Hinj; [by rewrite Hfan|done]).
      specialize (Hq _ _ Hf). rewrite decide_True in Hq by done.
      rewrite decide_False by (by apply NoDup_lookup_not_in_delete).
      change (queue (set_heap (<[ch0 := Chan (buf c ++ [m]) (cap c) false]> (heap s)) s) ch0
              = (queue s0 ch0 ++ sent ++ [m])%list).
      rewrite queue_insert_eq by (by eapply lookup_lt_Some). simpl.
      unfold queue in Hq at 1. rewrite Hc in Hq. rewrite Hq.
      by rewrite app_nil_r, <- app_assoc.
    + change (queue (set_heap (<[ch0 := Chan (buf c ++ [m]) (cap c) false]> (heap s)) s) ch
              = (queue s0 ch ++ sent ++
                   if decide ((idx, ch) ∈ delete pick pending) then [] else [m])%list).
      rewrite queue_insert_ne by congruence. rewrite (Hq _ _ Hf).
      assert ((idx, ch) ≠ (idx0, ch0)) as Hne' by congruence.
      pose proof (elem_of_delete_other pending pick _ _ Hp Hne').
      repeat case_decide; tauto.
  - exists (sent ++ [m])%list. split; [done|]. simpl. rewrite list_lookup_insert_eq by done.
    split; [by rewrite <- app_assoc|].
    intros idx ch Hf. specialize (Hq _ _ Hf).
    rewrite decide_False in Hq by (by intros ?%elem_of_nil).
    exact Hq.
Qed.

Lemma fanned_run_steps s0 i picks : ∀ s s' sent,
  wf s → fanned s0 s i sent → run_steps i picks s = Some s' →
  ∃ sent', fanned s0 s' i sent'.
Proof.
  induction picks as [|p picks IH]; intros s s' sent Hwf Hfan; simpl.
  - intros [= <-]. eauto.
  - destruct (run i p s) as [s1|] eqn:Hrun; simpl; [|done].
    destruct (fanned_run _ _ _ _ _ _ Hwf Hfan Hrun) as [sent1 Hfan1].
    eapply IH; [|done]. by eapply wf_run.
Qed.

Lemma run_steps_app i picks1 picks2 s :
  run_steps i (picks1 ++ picks2) s = s1 ← run_steps i picks1 s; run_steps i picks2 s1.
Proof.
  revert s. induction picks1 as [|p picks1 IH]; intros s; simpl; [done|].
  destruct (run i p s) as [s1|]; simpl; [apply IH|done].
Qed.

Lemma room_wf s idx ch :
  wf s → fanOut s !! idx = Some ch → room s ch = (msgBuffer - length (queue s ch))%nat.
Proof.
  intros ([Hbound _] & _ & _ & _ & Hheap) Hf. unfold room, queue.
  destruct (heap s !! ch) as [c|] eqn:Hc.
  - destruct (Hheap _ _ Hc) as [_ ->]. done.
  - apply Hbound in Hf. apply lookup_ge_None in Hc. lia.
Qed.

Lemma room_pos s ch :
  (0 < room s ch)%nat → ∃ c, heap s !! ch = Some c ∧ (length (buf c) < cap c)%nat.
Proof.
  unfold room. destruct (heap s !! ch) as [c|]; [|lia]. intros. exists c. split; [done|lia].
Qed.

(** With a free slot in every pending channel the range loop runs to its end. *)
Lemma forward_all i m : ∀ pending s,
  wf s → workers s !! i = Some (InRange m pending) →
  (∀ idx ch, (idx, ch) ∈ pending → (0 < room s ch)%nat) →
  ∃ s', run_steps i (replicate (length pending) 0%nat) s = Some s' ∧
        workers s' !! i = Some (InRange m []) ∧
        mu s' = mu s ∧ messages s' = messages s.
Proof.
  induction pending as [|[idx0 ch0] rest IH]; intros s Hwf Hw Hroom; simpl.
  - exists s. done.
  - destruct (room_pos s ch0) as (c & Hc & Hlt); [apply (Hroom idx0); left|].
    pose proof Hwf as ([Hbound Hinj] & Hpend & _ & _ & Hheap).
    destruct (Hheap _ _ Hc) as [Hcl _].
    pose proof (run_forward i 0 s m ((idx0, ch0) :: rest) idx0 ch0 c Hw eq_refl Hc Hcl Hlt)
      as Hrun.
    apply run_iff in Hrun. rewrite Hrun. simpl.
    match type of Hrun with _ = Some ?x => set (s1 := x) in * end.
    assert (i < length (workers s))%nat as Hi by (by eapply lookup_lt_Some).
    destruct (IH s1) as (s' & Hsteps & Hw' & Hmu & Hmsgs).
    + by eapply wf_run.
    + unfold s1; simpl. by rewrite list_lookup_insert_eq.
    + intros idx ch Hin.
      destruct (Hpend _ _ Hw) as [Hnd Hsub].
      assert (ch ≠ ch0) as Hne.
      { intros ->. apply NoDup_cons in Hnd as [Hnotin _]. apply Hnotin.
        assert (idx = idx0) as ->; [|done].
        eapply Hinj; apply Hsub; [by right|by left]. }
      unfold room, s1; simpl. rewrite list_lookup_insert_ne by congruence.
      apply (Hroom idx). by right.
    + exists s'. done.
Qed.

(** One turn of the loop: receive, lock, visit every entry, unlock. *)
Lemma run_one_message i s m q :
  wf s → workers s !! i = Some AtRecv → mu s = false →
  buf (messages s) = m :: q →
  (∀ idx ch, fanOut s !! idx = Some ch → (0 < room s ch)%nat) →
  ∃ picks s', run_steps i picks s = Some s' ∧ workers s' !! i = Some AtRecv ∧
              mu s' = false ∧ buf (messages s') = q.
Proof.
  intros Hwf Hw Hfree Hb Hroom.
  assert (i < length (workers s))%nat as Hi by (by eapply lookup_lt_Some).
  pose proof (run_receive i 0 s m q Hw Hb) as H1. apply run_iff in H1.
  match type of H1 with _ = Some ?x => set (s1 := x) in * end.
  assert (workers s1 !! i = Some (AtLock m)) as Hw1
    by (unfold s1; simpl; by rewrite list_lookup_insert_eq).
  pose proof (run_lock i 0 s1 m Hw1 Hfree) as H2. apply run_iff in H2.
  match type of H2 with _ = Some ?x => set (s2 := x) in * end.
  assert (wf s2) as Hwf2 by (eapply wf_run; [eapply wf_run|]; done).
  destruct (forward_all i m (map_to_list (fanOut s)) s2) as (s3 & H3 & Hw3 & Hmu3 & Hmsg3).
  { done. }
  { unfold s2, s1; simpl. rewrite list_lookup_insert_eq; [done|].
    by rewrite length_insert. }
  { intros idx ch Hin%elem_of_map_to_list. by apply (Hroom idx). }
  pose proof (run_unlock i 0 s3 m Hw3) as H4. apply run_iff in H4.
  match type of H4 with _ = Some ?x => set (s4 := x) in * end.
  exists ([0; 0]%nat ++ replicate (length (map_to_list (fanOut s))) 0%nat ++ [0%nat])%list, s4.
  split; [|split; [|split]].
  - rewrite run_steps_app. simpl. rewrite H1. simpl. rewrite H2. simpl.
    rewrite run_steps_app, H3. simpl. by rewrite H4.
  - unfold s4; simpl. rewrite list_lookup_insert_eq; [done|]. by eapply lookup_lt_Some.
  - done.
  - unfold s4; simpl. by rewrite Hmsg3.
Qed.

Lemma fanned_finish s0 s i sent ms rest :
  fanned s0 s i sent → workers s !! i = Some AtRecv →
  buf (messages s0) = (ms ++ rest)%list → buf (messages s) = rest →
  fanOut s = fanOut s0 ∧
  ∀ idx ch, fanOut s0 !! idx = Some ch → queue s ch = (queue s0 ch ++ ms)%list.
Proof.
  intros [Hfan Hst] Hw Hms Hrest. rewrite Hw in Hst. destruct Hst as [Hmsgs Hq].
  split; [done|]. rewrite Hms, Hrest in Hmsgs. apply app_inv_tail in Hmsgs as ->. done.
Qed.

Lemma run_steps_safe i s s' picks ms rest :
  wf s → workers s !! i = Some AtRecv → buf (messages s) = (ms ++ rest)%list →
  run_steps i picks s = Some s' → workers s' !! i = Some AtRecv →
  buf (messages s') = rest →
  fanOut s' = fanOut s ∧
  ∀ idx ch, fanOut s !! idx = Some ch → queue s' ch = (queue s ch ++ ms)%list.
Proof.
  intros Hwf Hw Hms Hsteps Hw' Hrest.
  destruct (fanned_run_steps s i picks s s' [] Hwf (fanned_start s i Hw) Hsteps)
    as [sent Hfan].
  by eapply fanned_finish.
Qed.

Lemma wf_run_steps i picks : ∀ s s', wf s → run_steps i picks s = Some s' → wf s'.
Proof.
  induction picks as [|p picks IH]; intros s s' Hwf; simpl; [by intros [= <-]|].
  destruct (run i p s) as [s1|] eqn:Hrun; simpl; [|done].
  apply IH. by eapply wf_run.
Qed.

Lemma run_all_messages i ms : ∀ s rest,
  wf s → workers s !! i = Some AtRecv → mu s = false →
  buf (messages s) = (ms ++ rest)%list →
  (∀ idx ch, fanOut s !! idx = Some ch → (length ms ≤ room s ch)%nat) →
  ∃ picks s', run_steps i picks s = Some s' ∧ workers s' !! i = Some AtRecv ∧
              mu s' = false ∧ buf (messages s') = rest.
Proof.
  induction ms as [|m ms IH]; intros s rest Hwf Hw Hfree Hb Hroom.
  - exists [], s. done.
  - destruct (run_one_message i s m (ms ++ rest)%list Hwf Hw Hfree Hb)
      as (picks1 & s1 & Hsteps1 & Hw1 & Hfree1 & Hb1).
    { intros idx ch Hf. specialize (Hroom _ _ Hf). simpl in Hroom. lia. }
    assert (wf s1) as Hwf1 by (by eapply wf_run_steps).
    destruct (run_steps_safe i s s1 picks1 [m] (ms ++ rest)%list) as [Hfan Hq]; try done.
    destruct (IH s1 rest) as (picks2 & s2 & Hsteps2 & Hw2 & Hfree2 & Hb2); try done.
    { intros idx ch Hf. rewrite Hfan in Hf.
      rewrite (room_wf s1 idx ch) by (by rewrite ?Hfan).
      specialize (Hroom _ _ Hf). rewrite (room_wf s idx ch) in Hroom by done.
      rewrite (Hq _ _ Hf), length_app. simpl in *. lia. }
    exists (picks1 ++ picks2)%list, s2. rewrite run_steps_app, Hsteps1. done.
Qed.

(** ** Several workers *)

Lemma omap_hand_insert ws i w w' :
  ws !! i = Some w →
  (omap hand (<[i := w']> ws) ++ option_list (hand w))%list ≡ₚ
  (omap hand ws ++ option_list (hand w'))%list.
Proof.
  intros Hi.
  rewrite insert_take_drop by (by eapply lookup_lt_Some).
  rewrite <- (take_drop_middle ws i w Hi) at 3.
  rewrite !omap_app. simpl.
  destruct (hand w), (hand w'); simpl; solve_Permutation.
Qed.

Lemma idle_hand s : idle s → omap hand (workers s) = [].
Proof.
  unfold idle. induction 1 as [|w ws -> _ IH]; [done|]. simpl. exact IH.
Qed.

Lemma idle_no_holder s i w : idle s → workers s !! i = Some w → holds_lock w = false.
Proof.
  intros Hidle Hw. unfold idle in Hidle. rewrite Forall_lookup in Hidle.
  by rewrite (Hidle _ _ Hw).
Qed.

Lemma spread_start s : idle s → spread s s [].
Proof.
  intros Hidle. split; [done|]. split; [|split].
  - exists []. by rewrite idle_hand.
  - intros i m pending Hw. by apply (idle_no_holder _ _ _ Hidle) in Hw.
  - intros _ idx ch _. by rewrite app_nil_r.
Qed.

Lemma spread_run s0 s s' i pick sent :
  wf s → spread s0 s sent → run i pick s = Some s' → ∃ sent', spread s0 s' sent'.
Proof.
  intros Hwf (Hfan & (taken & Hmsgs & Hperm) & Hin & Hout) Hrun%run_iff.
  destruct Hwf as ([Hbound Hinj] & Hpend & [Hheld Huniq] & _).
  destruct Hrun as [m q Hw Hb|m Hw Hfree|m pending idx0 ch0 c Hw Hp Hc Hcl Hlt|m Hw];
    assert (i < length (workers s))%nat as Hi by (by eapply lookup_lt_Some).
  - pose proof (omap_hand_insert (workers s) i _ (AtLock m) Hw) as Hhand.
    simpl in Hhand. rewrite app_nil_r in Hhand.
    exists sent. split; [done|]. split; [|split]; simpl.
    + exists (taken ++ [m])%list. split; [by rewrite Hmsgs, Hb, <- app_assoc|].
      by rewrite Hhand, Hperm, app_assoc.
    + intros j m' pending' Hj. destruct (decide (j = i)) as [->|Hne].
      * by rewrite list_lookup_insert_eq in Hj.
      * rewrite list_lookup_insert_ne in Hj by done. by eapply Hin.
    + intros Hnone. apply Hout. intros j w Hj. destruct (decide (j = i)) as [->|Hne].
      * rewrite Hw in Hj. by injection Hj as <-.
      * apply (Hnone j). by rewrite list_lookup_insert_ne.
  - pose proof (omap_hand_insert (workers s) i _ (InRange m (map_to_list (fanOut s))) Hw)
      as Hhand.
    simpl in Hhand. apply Permutation_app_inv_r in Hhand.
    assert (∀ j w, workers s !! j = Some w → holds_lock w = false) as Hnone.
    { intros j w Hj. destruct (holds_lock w) eqn:Hh; [|done].
      rewrite (Hheld _ _ Hj Hh) in Hfree. done. }
    exists sent. split; [done|]. split; [|split]; simpl.
    + exists taken. split; [done|]. by rewrite Hhand.
    + intros j m' pending' Hj. destruct (decide (j = i)) as [->|Hne].
      * rewrite list_lookup_insert_eq in Hj by done. injection Hj as <- <-.
        intros idx ch Hf. rewrite decide_True; [|apply elem_of_map_to_list; by rewrite Hfan].
        rewrite app_nil_r. by apply (Hout Hnone idx).
      * rewrite list_lookup_insert_ne in Hj by done. by apply Hnone in Hj.
    + intros Hnone'. specialize (Hnone' i (InRange m (map_to_list (fanOut s)))).
      rewrite list_lookup_insert_eq in Hnone' by done. by specialize (Hnone' eq_refl).
  - pose proof (omap_hand_insert (workers s) i _ (InRange m (delete pick pending)) Hw)
      as Hhand.
    simpl in Hhand. apply Permutation_app_inv_r in Hhand.
    exists sent. split; [done|]. split; [|split]; simpl.
    + exists taken. split; [done|]. by rewrite Hhand.
    + intros j m' pending' Hj idx ch Hf. destruct (decide (j = i)) as [->|Hne].
      2:{ rewrite list_lookup_insert_ne in Hj by done.
          destruct Hne. by eapply Huniq. }
      rewrite list_lookup_insert_eq in Hj by done. injection Hj as <- <-.
      pose proof (Hin _ _ _ Hw) as Hq.
      pose proof (Hpend _ _ Hw) as [Hnd Hsub].
      assert ((idx0, ch0) ∈ pending) as Hin0 by (apply list_elem_of_lookup; eauto).
      pose proof (Hsub _ _ Hin0) as Hf0.
      destruct (decide (ch = ch0)) as [->|Hne].
      * assert (idx = idx0) as -> by (eapply Hinj; [by rewrite Hfan|done]).
        specialize (Hq _ _ Hf). rewrite decide_True in Hq by done.
        rewrite decide_False by (by apply NoDup_lookup_not_in_delete).
        change (queue (set_heap (<[ch0 := Chan (buf c ++ [m]) (cap c) false]> (heap s)) s) ch0
                = (queue s0 ch0 ++ sent ++ [m])%list).
        rewrite queue_insert_eq by (by eapply lookup_lt_Some). simpl.
        unfold queue in Hq at 1. rewrite Hc in Hq. rewrite Hq.
        by rewrite app_nil_r, <- app_assoc.
      * change (queue (set_heap (<[ch0 := Chan (buf c ++ [m]) (cap c) false]> (heap s)) s) ch
                = (queue s0 ch ++ sent ++
                     if decide ((idx, ch) ∈ delete pick pending) then [] else [m])%list).
        rewrite queue_insert_ne by congruence. rewrite (Hq _ _ Hf).
        assert ((idx, ch) ≠ (idx0, ch0)) as Hne' by congruence.
        pose proof (elem_of_delete_other pending pick _ _ Hp Hne').
        repeat case_decide; tauto.
    + intros Hnone'. specialize (Hnone' i (InRange m (delete pick pending))).
      rewrite list_lookup_insert_eq in Hnone' by done. by specialize (Hnone' eq_refl).
  - pose proof (omap_hand_insert (workers s) i _ AtRecv Hw) as Hhand.
    simpl in Hhand. rewrite app_nil_r in Hhand.
    exists (sent ++ [m])%list. split; [done|]. split; [|split]; simpl.
    + exists taken. split; [done|]. by rewrite <- app_assoc, (comm app [m]), Hhand.
    + intros j m' pending' Hj. destruct (decide (j = i)) as [->|Hne].
      * by rewrite list_lookup_insert_eq in Hj.
      * rewrite list_lookup_insert_ne in Hj by done.
        destruct Hne. by eapply Huniq.
    + intros _ idx ch Hf. pose proof (Hin _ _ _ Hw _ _ Hf) as Hq.
      rewrite decide_False in Hq by (by intros ?%elem_of_nil).
      exact Hq.
Qed.

Lemma spread_runs s0 sched : ∀ s s' sent,
  wf s → spread s0 s sent → runs sched s = Some s' → ∃ sent', spread s0 s' sent'.
Proof.
  induction sched as [|[i p] sched IH]; intros s s' sent Hwf Hsp; simpl.
  - intros [= <-]. eauto.
  - destruct (run i p s) as [s1|] eqn:Hrun; simpl; [|done].
    destruct (spread_run _ _ _ _ _ _ Hwf Hsp Hrun) as [sent1 Hsp1].
    eapply IH; [|done]. by eapply wf_run.
Qed.

Lemma spread_finish s0 s sent ms rest :
  spread s0 s sent → idle s →
  buf (messages s0) = (ms ++ rest)%list → buf (messages s) = rest →
  fanOut s = fanOut s0 ∧ sent ≡ₚ ms ∧
  ∀ idx ch, fanOut s0 !! idx = Some ch → queue s ch = (queue s0 ch ++ sent)%list.
Proof.
  intros (Hfan & (taken & Hmsgs & Hperm) & _ & Hout) Hidle Hms Hrest.
  rewrite Hms, Hrest in Hmsgs. apply app_inv_tail in Hmsgs as ->.
  rewrite idle_hand, app_nil_r in Hperm by done.
  split; [done|]. split; [done|]. apply Hout. intros i w. by apply idle_no_holder.
Qed.

Lemma run_others i pick s s' :
  run i pick s = Some s' →
  length (workers s') = length (workers s) ∧
  ∀ j, j ≠ i → workers s' !! j = workers s !! j.
Proof.
  intros Hrun%run_iff.
  destruct Hrun; simpl; (split; [apply length_insert|]);
    intros j Hne; by rewrite list_lookup_insert_ne.
Qed.

Lemma run_steps_others i picks : ∀ s s',
  run_steps i picks s = Some s' →
  length (workers s') = length (workers s) ∧
  ∀ j, j ≠ i → workers s' !! j = workers s !! j.
Proof.
  induction picks as [|p picks IH]; intros s s'; simpl; [by intros [= <-]|].
  destruct (run i p s) as [s1|] eqn:Hrun; simpl; [|done]. intros Hsteps.
  destruct (run_others _ _ _ _ Hrun) as [Hlen1 Hoth1].
  destruct (IH _ _ Hsteps) as [Hlen2 Hoth2].
  split; [congruence|]. intros j Hne. by rewrite Hoth2, Hoth1.
Qed.

Lemma idle_run_steps i picks s s' :
  idle s → run_steps i picks s = Some s' → workers s' !! i = Some AtRecv → idle s'.
Proof.
  intros Hidle Hsteps Hw. destruct (run_steps_others _ _ _ _ Hsteps) as [_ Hoth].
  unfold idle in *. rewrite Forall_lookup in *. intros j w Hj.
  destruct (decide (j = i)) as [->|Hne]; [congruence|].
  rewrite Hoth in Hj by done. by eapply Hidle.
Qed.

(** C1 as stated fails once two workers run: in the sample run the
    registry is fixed, "a" is published before "b", and the worker that
    received "b" takes the lock first, so both subscriber queues receive
    the two messages in the order "b", "a". *)
Lemma publish_order_counterexample :
  ∃ x, exec demo_overtake demo = Some x ∧
       fanOut (srv x) = fanOut (srv demo) ∧
       buf (messages (srv demo)) = ["a"; "b"] ∧ buf (messages (srv x)) = [] ∧
       queue (srv demo) 0 = [] ∧ queue (srv demo) 1 = [] ∧
       queue (srv x) 0 = ["b"; "a"] ∧ queue (srv x) 1 = ["b"; "a"].
Proof.
  eexists. split; [vm_compute; reflexivity|]. repeat split; reflexivity.
Qed.

(** C1, amended: with the registry fixed (N entries, no addition or
    removal) and the workers of [run] at the head of their loops, let the
    workers consume the M messages [ms] from the inbound queue, in any
    interleaving of their steps and any visiting order of the registry.
    Once they are back at the head of their loops, every registered
    subscriber queue has received exactly those M messages, each one once,
    and all queues have received them in one and the same order [out].
    When one worker does all the work that order is the publish order;
    between workers it need not be.  With M free slots in every
    subscriber queue a worker does get through all of them. *)
Theorem run_delivers_each_message_once s ms rest :
  wf s → buf (messages s) = (ms ++ rest)%list →
  (idle s →
   ∀ sched s',
     runs sched s = Some s' → idle s' → buf (messages s') = rest →
     fanOut s' = fanOut s ∧
     ∃ out, out ≡ₚ ms ∧ length out = length ms ∧
       ∀ idx ch, fanOut s !! idx = Some ch → queue s' ch = (queue s ch ++ out)%list) ∧
  (∀ i, workers s !! i = Some AtRecv →
     (∀ picks s',
        run_steps i picks s = Some s' → workers s' !! i = Some AtRecv →
        buf (messages s') = rest →
        fanOut s' = fanOut s ∧ (idle s → idle s') ∧
        ∀ idx ch, fanOut s !! idx = Some ch → queue s' ch = (queue s ch ++ ms)%list) ∧
     (mu s = false →
      (∀ idx ch, fanOut s !! idx = Some ch → (length ms ≤ room s ch)%nat) →
      ∃ picks s', run_steps i picks s = Some s' ∧ workers s' !! i = Some AtRecv ∧
                  buf (messages s') = rest)).
Proof.
  intros Hwf Hms. split.
  - intros Hidle sched s' Hruns Hidle' Hrest.
    destruct (spread_runs s sched s s' [] Hwf (spread_start s Hidle) Hruns) as [sent Hsp].
    destruct (spread_finish _ _ _ _ _ Hsp Hidle' Hms Hrest) as (Hfan & Hperm & Hq).
    split; [done|]. exists sent. split; [done|]. split; [by rewrite Hperm|done].
  - intros i Hw. split.
    + intros picks s' Hsteps Hw' Hrest.
      destruct (run_steps_safe i s s' picks ms rest) as [Hfan Hq]; try done.
      split; [done|]. split; [|done]. intros Hidle. by eapply idle_run_steps.
    + intros Hfree Hroom.
      destruct (run_all_messages i ms s rest Hwf Hw Hfree Hms Hroom)
        as (picks & s' & Hsteps & Hw' & _ & Hrest).
      by exists picks, s'.
Qed.

Lemma demo_reachable : reachable demo.
Proof. exists "", demo_events. vm_compute. reflexivity. Qed.

Lemma run_delivers_each_message_once_witness :
  (∃ s' out, runs overtake_schedule (srv demo) = Some s' ∧
             out ≡ₚ ["a"; "b"] ∧ queue s' 0 = out ∧ queue s' 1 = out) ∧
  (∃ picks s', run_steps 0 picks (srv demo) = Some s' ∧
               queue s' 0 = ["a"; "b"] ∧ queue s' 1 = ["a"; "b"]).
Proof.
  assert (idle (srv demo)) as Hidle by (repeat constructor).
  destruct (run_delivers_each_message_once (srv demo) ["a"; "b"] [])
    as (Hany & Hone).
  - apply reachable_wf, demo_reachable.
  - reflexivity.
  - split.
    + destruct (runs overtake_schedule (srv demo)) as [s'|] eqn:Hruns; [|discriminate].
      assert (idle s') as Hidle'.
      { vm_compute in Hruns. injection Hruns as <-. repeat constructor. }
      assert (buf (messages s') = []) as Hrest.
      { vm_compute in Hruns. injection Hruns as <-. reflexivity. }
      destruct (Hany Hidle _ s' Hruns Hidle' Hrest) as (_ & out & Hperm & _ & Hq).
      exists s', out. split; [done|]. split; [done|].
      split; [apply (Hq 101)|apply (Hq 102)]; reflexivity.
    + destruct (Hone 0%nat eq_refl) as [Hsafe Hprog].
      destruct (Hprog eq_refl) as (picks & s' & Hsteps & Hw & Hb).
      * intros idx ch Hf.
        assert (ch < 2)%nat as Hlt.
        { pose proof (reachable_wf _ demo_reachable) as ([Hbound _] & _).
          apply (Hbound idx ch Hf). }
        destruct ch as [|[|ch]]; [vm_compute; lia..|lia].
      * exists picks, s'.
        destruct (Hsafe picks s' Hsteps Hw Hb) as (_ & _ & Hq).
        split; [done|]. split; [apply (Hq 101)|apply (Hq 102)]; reflexivity.
Defined.

(** ** Snapshot semantics of the fan-out *)

Lemma ServeHTTP_server now upgrade_ok r w s w' s' ss :
  ServeHTTP now upgrade_ok r w s = Some (w', s', ss) →
  s' = go_run s ∨
  (∃ ch, addListener now (go_run s) = Some (now, ch, s')) ∨
  (∃ body q, Body r = Some body ∧ send body (messages (go_run s)) = Some q ∧
             s' = set_messages q (go_run s)).
Proof.
  unfold ServeHTTP.
  destruct (Path r =? "/")%string.
  { destruct (serveIndex _ _ _ _) as [[w1 s1]|] eqn:Hs; simpl; [|done].
    intros [= _ <- _]. apply serveIndex_server in Hs as [->|?]; auto. }
  destruct (Path r =? "/logs")%string.
  { intros ->%logOutput_server. auto. }
  destruct (Path r =? "/webhook")%string.
  { destruct (webhookReceiver _ _ _) as [[w1 s1]|] eqn:Hs; simpl; [|done].
    intros [= _ <- _]. apply webhookReceiver_server in Hs as [->|?]; auto. }
  intros [= _ <- _]. auto.
Qed.

Lemma logOutput_step_server push_ok ss s ss' s' :
  logOutput_step push_ok ss s = Some (ss', s') →
  s' = s ∨
  (∃ c m c', heap s !! s_ch ss = Some c ∧ recv c = Some (m, c') ∧
             s' = set_heap (<[s_ch ss := c']> (heap s)) s) ∨
  removeListener (s_idx ss) s = Some s'.
Proof.
  unfold logOutput_step. destruct (s_pc ss); [| |done].
  - destruct (heap s !! s_ch ss) as [c|] eqn:Hc; simpl; [|done].
    destruct (recv c) as [[msg c']|] eqn:Hr.
    + destruct (push push_ok (s_conn ss) msg) as [conn [e|]];
        intros [= _ <-]; right; left; by exists c, msg, c'.
    + destruct (drained c); [|done]. intros [= _ <-]. by left.
  - destruct (removeListener (s_idx ss) s) as [s1|] eqn:Hrm; simpl; [|done].
    intros [= _ <-]. auto.
Qed.










(** ** How many broadcast workers there are *)

Lemma ServeHTTP_workers now upgrade_ok r w s w' s' ss :
  ServeHTTP now upgrade_ok r w s = Some (w', s', ss) →
  workers s' = (workers s ++ [AtRecv])%list.
Proof.
  intros [->|[[ch Ha]|(body & q & _ & _ & ->)]]%ServeHTTP_server; try done.
  by apply addListener_Some in Ha as (_ & _ & _ & ->).
Qed.

Lemma run_workers_length i pick s s' :
  run i pick s = Some s' → length (workers s') = length (workers s).
Proof. intros Hrun%run_iff. destruct Hrun; simpl; by rewrite length_insert. Qed.

Lemma logOutput_step_workers push_ok ss s ss' s' :
  logOutput_step push_ok ss s = Some (ss', s') → workers s' = workers s.
Proof.
  intros [->|[(c & m & c' & _ & _ & ->)|Hrm]]%logOutput_step_server; try done.
  by apply removeListener_Some in Hrm as [_ ->].
Qed.

Lemma step_workers_length e x x' :
  step e x = Some x' →
  length (workers (srv x')) =
  (length (workers (srv x)) + if is_serve e then 1 else 0)%nat.
Proof.
  destruct e as [now upgrade_ok r|i pick|k push_ok]; simpl.
  - destruct (ServeHTTP _ _ _ _ _) as [[[w s] ss]|] eqn:Hs; simpl; [|done].
    intros [= <-]. simpl. rewrite (ServeHTTP_workers _ _ _ _ _ _ _ _ Hs), length_app. done.
  - destruct (run i pick (srv x)) as [s|] eqn:Hr; simpl; [|done].
    intros [= <-]. simpl. rewrite (run_workers_length _ _ _ _ Hr). lia.
  - destruct (sessions x !! k) as [ss|]; simpl; [|done].
    destruct (logOutput_step _ _ _) as [[ss' s]|] eqn:Hs; simpl; [|done].
    intros [= <-]. simpl. rewrite (logOutput_step_workers _ _ _ _ _ Hs). lia.
Qed.

Lemma exec_workers_length es : ∀ x x',
  exec es x = Some x' →
  length (workers (srv x')) = (length (workers (srv x)) + count_serve es)%nat.
Proof.
  induction es as [|e es IH]; intros x x'; simpl.
  - intros [= <-]. unfold count_serve. simpl. lia.
  - destruct (step e x) as [x1|] eqn:Hs; simpl; [|done]. intros Hex.
    rewrite (IH _ _ Hex), (step_workers_length _ _ _ Hs).
    unfold count_serve. simpl. destruct (is_serve e); simpl; lia.
Qed.

(** C3 as stated fails: the sample run serves four requests and has four
    workers, and two of them hold a message each at the same time. *)
Lemma several_workers_counterexample :
  ¬ (∀ x, reachable x → (length (workers (srv x)) ≤ 1)%nat) ∧
  (∃ x, exec demo_two_holders demo = Some x ∧
        workers (srv x) = [AtLock "a"; AtLock "b"; AtRecv; AtRecv]).
Proof.
  split.
  - intros Hone. specialize (Hone demo demo_reachable). vm_compute in Hone. lia.
  - eexists. split; [vm_compute; reflexivity|]. reflexivity.
Qed.

(** C3, amended: [ServeHTTP] starts one more broadcast worker for every
    request it serves, so a server that has served k requests runs k
    workers.  A message received by a worker leaves the inbound queue, so
    no other worker receives it; and at most one worker at a time is
    inside the fan-out. *)
Theorem worker_per_request :
  (∀ now upgrade_ok r w s w' s' ss,
     ServeHTTP now upgrade_ok r w s = Some (w', s', ss) →
     workers s' = (workers s ++ [AtRecv])%list) ∧
  (∀ token es x,
     exec es (new_world token) = Some x →
     length (workers (srv x)) = count_serve es) ∧
  (∀ i pick s s',
     workers s !! i = Some AtRecv → run i pick s = Some s' →
     ∃ m, buf (messages s) = m :: buf (messages s') ∧
          workers s' = <[i := AtLock m]> (workers s)) ∧
  (∀ x i j wi wj,
     reachable x →
     workers (srv x) !! i = Some wi → workers (srv x) !! j = Some wj →
     holds_lock wi = true → holds_lock wj = true → i = j).
Proof.
  split; [|split; [|split]].
  - apply ServeHTTP_workers.
  - intros token es x Hex. by rewrite (exec_workers_length _ _ _ Hex).
  - intros i pick s s' Hw Hrun%run_iff.
    destruct Hrun as [m q Hw' Hb| | |]; try congruence.
    exists m. done.
  - intros x i j wi wj (_ & _ & [_ Huniq] & _)%reachable_wf. apply Huniq.
Qed.

Lemma worker_per_request_witness :
  length (workers (srv demo)) = 4%nat ∧
  (∃ m, buf (messages (srv demo)) = [m; "b"]).
Proof.
  destruct worker_per_request as (_ & Hcount & Hrecv & _).
  split.
  - apply (Hcount "" demo_events demo). vm_compute. reflexivity.
  - destruct (run 0 0 (srv demo)) as [s'|] eqn:Hrun; [|discriminate].
    destruct (Hrecv 0%nat 0%nat (srv demo) s' eq_refl Hrun) as (m & Hb & _).
    exists m. rewrite Hb. vm_compute in Hrun. injection Hrun as <-. reflexivity.
Defined.

(** ** Identifiers handed out by [addListener] *)

(** C4 as stated fails: two registrations with the same clock reading.
    The second call returns an identifier that is in the registry at the
    moment of insertion, and takes the entry over. *)
Lemma addListener_reuses_identifier :
  ∃ s1 s2 ch1 ch2,
    addListener 5 (new_server "") = Some (5, ch1, s1) ∧
    addListener 5 s1 = Some (5, ch2, s2) ∧
    fanOut s1 !! 5 = Some ch1 ∧
    fanOut s2 !! 5 = Some ch2 ∧ ch1 ≠ ch2 ∧
    ¬ (∀ now s idx ch s', wf s → addListener now s = Some (idx, ch, s') →
                          fanOut s !! idx = None).
Proof.
  eexists _, _, _, _.
  split; [reflexivity|]. split; [reflexivity|]. split; [reflexivity|].
  split; [reflexivity|]. split; [vm_compute; lia|].
  intros Hfresh.
  assert (wf (set_fanOut {[5 := 0%nat]} (set_heap [make msgBuffer] (new_server "")))) as Hwf.
  { eapply (wf_addListener 5 (new_server "")); [apply wf_new_server|reflexivity]. }
  specialize (Hfresh 5 _ 5 1%nat _ Hwf eq_refl). vm_compute in Hfresh. discriminate.
Qed.

(** C4, amended: [addListener] returns the clock reading as identifier
    and writes it into the registry with a new queue, a channel that did
    not exist before, empty, open and of capacity 1000, without looking
    at the registry first.  The identifier is fresh whenever the clock
    reading is not a key at that moment, and the registry then grows by
    exactly one entry; when the reading is a registered identifier, that
    entry is overwritten with the new queue and the registry keeps its
    size.  The other entries and all existing queues are kept in every
    case, and registered identifiers keep having a queue each of their
    own.  The call goes through whenever the mutex is free. *)
Theorem addListener_identifier now s :
  wf s →
  (mu s = false → ∃ ch s', addListener now s = Some (now, ch, s')) ∧
  (∀ idx ch s',
     addListener now s = Some (idx, ch, s') →
     idx = now ∧
     fanOut s' = <[now := ch]> (fanOut s) ∧
     heap s !! ch = None ∧ heap s' !! ch = Some (make msgBuffer) ∧
     (∀ ch' c, heap s !! ch' = Some c → heap s' !! ch' = Some c) ∧
     (∀ j, fanOut s !! j ≠ Some ch) ∧
     (∀ j, j ≠ now → fanOut s' !! j = fanOut s !! j) ∧
     (fanOut s !! now = None →
        (∀ j, is_Some (fanOut s !! j) → j ≠ idx) ∧
        size (fanOut s') = S (size (fanOut s))) ∧
     (is_Some (fanOut s !! now) → size (fanOut s') = size (fanOut s)) ∧
     (∀ i j c, fanOut s' !! i = Some c → fanOut s' !! j = Some c → i = j)).
Proof.
  intros Hwf. split.
  - intros Hfree. eexists _, _. by apply addListener_Some.
  - intros idx ch s' Ha.
    pose proof (wf_addListener _ _ _ _ _ Hwf Ha) as ([_ Hinj'] & _).
    destruct Hwf as ([Hbound _] & _).
    apply addListener_Some in Ha as (Hfree & -> & -> & ->). simpl in *.
    split; [done|]. split; [done|].
    split; [by apply lookup_ge_None|].
    split; [by rewrite lookup_app_r, Nat.sub_diag|].
    split; [intros ch' c Hc; by apply lookup_app_l_Some|].
    split; [intros j Hj%Hbound; lia|].
    split; [intros j Hne; by rewrite lookup_insert_ne|].
    split; [|split; [|done]].
    + intros Hnone. split.
      * intros j [c Hj] ->. congruence.
      * by apply map_size_insert_None.
    + intros [c Hc]. by eapply map_size_insert_Some.
Qed.

Lemma addListener_identifier_witness :
  (∃ ch s', addListener 103 (srv demo) = Some (103, ch, s') ∧
            fanOut s' !! 103 = Some ch ∧ heap s' !! ch = Some (make msgBuffer) ∧
            fanOut s' !! 101 = Some 0%nat ∧ size (fanOut s') = 3%nat) ∧
  (∃ ch s', addListener 101 (srv demo) = Some (101, ch, s') ∧
            fanOut (srv demo) !! 101 = Some 0%nat ∧
            fanOut s' !! 101 = Some ch ∧ ch ≠ 0%nat ∧
            heap s' !! ch = Some (make msgBuffer) ∧
            fanOut s' !! 102 = Some 1%nat ∧ size (fanOut s') = 2%nat).
Proof.
  pose proof (reachable_wf _ demo_reachable) as Hwf.
  split.
  - destruct (addListener_identifier 103 (srv demo) Hwf) as [Htotal Hspec].
    destruct (Htotal eq_refl) as (ch & s' & Ha).
    destruct (Hspec _ _ _ Ha) as (_ & Hf & _ & Hnew & _ & _ & Hkeep & Hfresh & _).
    exists ch, s'. split; [done|]. split; [rewrite Hf; apply lookup_insert_eq|].
    split; [done|]. split; [by rewrite Hkeep|].
    destruct (Hfresh eq_refl) as [_ ->]. reflexivity.
  - destruct (addListener_identifier 101 (srv demo) Hwf) as [Htotal Hspec].
    destruct (Htotal eq_refl) as (ch & s' & Ha).
    destruct (Hspec _ _ _ Ha) as (_ & Hf & _ & Hnew & _ & Hnot & Hkeep & _ & Hover & _).
    exists ch, s'. split; [done|]. split; [reflexivity|].
    split; [rewrite Hf; apply lookup_insert_eq|].
    split; [intros ->; by apply (Hnot 101)|].
    split; [done|]. split; [by rewrite Hkeep|].
    rewrite Hover; [reflexivity|]. by exists 0%nat.
Defined.

(** ** Publishing: the bearer check and the enqueue *)

Lemma cut_space_Some s a b :
  cut_space s = Some (a, b) ↔ has_space a = false ∧ s = (a ++ " " ++ b)%string.
Proof.
  revert a. induction s as [|c s IH]; intros a; simpl.
  - split; [done|]. intros [_ Heq]. destruct a; discriminate.
  - destruct (Ascii.eqb_spec c " "%char) as [->|Hne].
    + split.
      * intros [= <- <-]. done.
      * intros [Hsp Heq]. destruct a as [|c' a]; simpl in *.
        -- by injection Heq as ->.
        -- injection Heq as <- _. simpl in Hsp. done.
    + destruct (cut_space s) as [[a' b']|] eqn:Hcut.
      * split.
        -- intros [= <- <-]. simpl. destruct (IH a') as [[Hsp ->] _]; [done|].
           split; [|done]. by destruct (Ascii.eqb_spec c " "%char).
        -- intros [Hsp Heq]. destruct a as [|c' a]; simpl in *.
           ++ injection Heq as -> _. done.
           ++ injection Heq as <- ->. apply orb_false_elim in Hsp as [_ Hsp].
              destruct (IH a) as [_ Hback]. specialize (Hback (conj Hsp eq_refl)).
              by injection Hback as -> ->.
      * split; [done|]. intros [Hsp Heq]. destruct a as [|c' a]; simpl in *.
        -- injection Heq as -> _. done.
        -- injection Heq as <- ->. apply orb_false_elim in Hsp as [_ Hsp].
           destruct (IH a) as [_ Hback]. by specialize (Hback (conj Hsp eq_refl)).
Qed.

Lemma lower_space c : Ascii.eqb (lower c) " "%char = Ascii.eqb c " "%char.
Proof. destruct c as [[] [] [] [] [] [] [] []]; reflexivity. Qed.

Lemma has_space_ToLower s : has_space (ToLower s) = has_space s.
Proof. induction s as [|c s IH]; simpl; [done|]. by rewrite lower_space, IH. Qed.

Lemma bearer_mismatch_false auth token :
  bearer_mismatch auth token = false ↔ authorized_header auth token.
Proof.
  unfold bearer_mismatch, SplitN2, authorized_header. split.
  - destruct (cut_space auth) as [[a b]|] eqn:Hcut; simpl; [|done].
    intros [Hlow Htok]%orb_false_elim.
    apply negb_false_iff, String.eqb_eq in Hlow.
    apply negb_false_iff, String.eqb_eq in Htok. subst b.
    apply cut_space_Some in Hcut as [_ ->]. eauto.
  - intros (scheme & Hlow & ->).
    assert (has_space scheme = false) as Hsp.
    { rewrite <- has_space_ToLower, Hlow. reflexivity. }
    destruct (cut_space_Some (scheme ++ " " ++ token)%string scheme token) as [_ Hcut].
    rewrite (Hcut (conj Hsp eq_refl)). simpl.
    rewrite Hlow, !String.eqb_refl. done.
Qed.

Lemma bearer_mismatch_true auth token :
  bearer_mismatch auth token = true ↔ ¬ authorized_header auth token.
Proof.
  rewrite <- bearer_mismatch_false. destruct (bearer_mismatch auth token); split; congruence.
Qed.

Lemma status_WriteHeader c w : code w = None → status (WriteHeader c w) = c.
Proof. intros Hc. unfold status, WriteHeader. by rewrite Hc. Qed.

Lemma webhookReceiver_enqueue r w s body :
  wf s → (Method r =? "POST")%string = true →
  (bearer s =? "")%string || negb (bearer_mismatch (Header_Get_Authorization r) (bearer s))
    = true →
  Body r = Some body →
  (length (buf (messages s)) < msgBuffer)%nat →
  webhookReceiver r w s =
  Some (w, set_messages (Chan (buf (messages s) ++ [body]) msgBuffer false) s).
Proof.
  intros (_ & _ & _ & [Hcl Hcap] & _) Hpost Hauth Hbody Hroom.
  unfold webhookReceiver. rewrite Hpost. simpl.
  replace (negb (bearer s =? "")%string &&
           bearer_mismatch (Header_Get_Authorization r) (bearer s)) with false.
  2:{ destruct (bearer s =? "")%string, (bearer_mismatch _ _); done. }
  rewrite Hbody.
  destruct (send_Some body (messages s)
              (Chan (buf (messages s) ++ [body]) (cap (messages s)) false)) as [_ Hsend].
  rewrite Hsend by (rewrite Hcap; done). simpl. by rewrite Hcap.
Qed.

(** The send on a full inbound queue blocks the handler. *)
Lemma webhookReceiver_blocks_when_full r w s body :
  wf s → Method r = "POST" → bearer s = "" → Body r = Some body →
  (msgBuffer ≤ length (buf (messages s)))%nat →
  webhookReceiver r w s = None.
Proof.
  intros (_ & _ & _ & [Hcl Hcap] & _) Hpost Htok Hbody Hfull.
  unfold webhookReceiver. rewrite Hpost, Htok, Hbody. simpl.
  unfold send. rewrite Hcl, Hcap.
  destruct (Nat.ltb_spec (length (buf (messages s))) msgBuffer); [lia|done].
Qed.

(** C5: with a bearer token configured, a POST to [/webhook] is accepted
    exactly when its Authorization header is a scheme word equal to
    "bearer" up to letter case, one space, and the configured token.  Any
    other header, and an absent one, gets 401 and leaves the server as it
    was (nothing is enqueued); the right header gets 200 and the body
    enqueued. *)
Theorem webhook_bearer_auth r w s :
  wf s → code w = None → Method r = "POST" → bearer s ≠ "" →
  (¬ authorized_header (Header_Get_Authorization r) (bearer s) →
     ∃ w', webhookReceiver r w s = Some (w', s) ∧ status w' = StatusUnauthorized) ∧
  (Authorization r = None →
     ¬ authorized_header (Header_Get_Authorization r) (bearer s)) ∧
  (authorized_header (Header_Get_Authorization r) (bearer s) →
     ∀ body, Body r = Some body → (length (buf (messages s)) < msgBuffer)%nat →
     ∃ w' s', webhookReceiver r w s = Some (w', s') ∧ status w' = StatusOK ∧
              buf (messages s') = (buf (messages s) ++ [body])%list).
Proof.
  intros Hwf Hcode Hpost Htok. split; [|split].
  - intros Hbad%bearer_mismatch_true. exists (WriteHeader StatusUnauthorized w).
    split; [|by apply status_WriteHeader].
    unfold webhookReceiver. rewrite Hpost. simpl.
    apply String.eqb_neq in Htok. by rewrite Htok, Hbad.
  - intros Hnone (scheme & _ & Heq). unfold Header_Get_Authorization in Heq.
    rewrite Hnone in Heq. destruct scheme; discriminate.
  - intros Hok%bearer_mismatch_false body Hbody Hroom.
    eexists _, _. split.
    + apply webhookReceiver_enqueue; try done.
      * by rewrite Hpost.
      * rewrite Hok. apply orb_true_r.
    + split; [|done]. unfold status. by rewrite Hcode.
Qed.

Lemma webhook_bearer_auth_witness :
  let s := Server "secret" (make msgBuffer) ∅ false [] [] in
  (∃ w', webhookReceiver (post_webhook (Some "Bearer wrong") "x") new_response s
           = Some (w', s) ∧ status w' = StatusUnauthorized) ∧
  (∃ w', webhookReceiver (post_webhook (Some "Basic secret") "x") new_response s
           = Some (w', s) ∧ status w' = StatusUnauthorized) ∧
  (∃ w', webhookReceiver (post_webhook None "x") new_response s
           = Some (w', s) ∧ status w' = StatusUnauthorized) ∧
  (∃ w' s', webhookReceiver (post_webhook (Some "bEARER secret") "x") new_response s
           = Some (w', s') ∧ status w' = StatusOK ∧ buf (messages s') = ["x"]).
Proof.
  intros s.
  assert (wf s) as Hwf by apply (wf_new_server "secret").
  assert (bearer s ≠ "") as Htok by discriminate.
  assert (∀ a, bearer_mismatch a "secret" = true →
               ¬ authorized_header a "secret") as Hbad.
  { intros a. apply bearer_mismatch_true. }
  split; [|split; [|split]].
  - destruct (webhook_bearer_auth (post_webhook (Some "Bearer wrong") "x") new_response s
                Hwf eq_refl eq_refl Htok) as (H401 & _ & _).
    apply H401, Hbad. reflexivity.
  - destruct (webhook_bearer_auth (post_webhook (Some "Basic secret") "x") new_response s
                Hwf eq_refl eq_refl Htok) as (H401 & _ & _).
    apply H401, Hbad. reflexivity.
  - destruct (webhook_bearer_auth (post_webhook None "x") new_response s
                Hwf eq_refl eq_refl Htok) as (H401 & Habsent & _).
    apply H401, Habsent. reflexivity.
  - destruct (webhook_bearer_auth (post_webhook (Some "bEARER secret") "x") new_response s
                Hwf eq_refl eq_refl Htok) as (_ & _ & H200).
    apply (H200 (ex_intro _ "bEARER" (conj eq_refl eq_refl)) "x" eq_refl).
    vm_compute. lia.
Defined.

(** C6: a POST to [/webhook] that passes the bearer check and whose body
    is read in full is answered 200 and appends the body, as one message,
    to the inbound queue; nothing else of the server changes, whatever the
    registry holds and whether or not a fan-out holds the mutex.  The send
    needs a free slot in the inbound queue.  Any other method gets 405 and
    leaves the server as it was. *)
Theorem webhook_publish r w s :
  wf s → code w = None →
  (Method r ≠ "POST" →
     ∃ w', webhookReceiver r w s = Some (w', s) ∧ status w' = StatusMethodNotAllowed) ∧
  (Method r = "POST" →
   bearer s = "" ∨ authorized_header (Header_Get_Authorization r) (bearer s) →
   ∀ body, Body r = Some body → (length (buf (messages s)) < msgBuffer)%nat →
   ∃ w' s', webhookReceiver r w s = Some (w', s') ∧ status w' = StatusOK ∧
            buf (messages s') = (buf (messages s) ++ [body])%list ∧
            fanOut s' = fanOut s ∧ heap s' = heap s ∧ mu s' = mu s ∧
            workers s' = workers s).
Proof.
  intros Hwf Hcode. split.
  - intros Hm%String.eqb_neq. exists (WriteHeader StatusMethodNotAllowed w).
    split; [|by apply status_WriteHeader].
    unfold webhookReceiver. by rewrite Hm.
  - intros Hpost Hauth body Hbody Hroom. eexists _, _. split.
    + apply webhookReceiver_enqueue; try done.
      * by rewrite Hpost.
      * destruct Hauth as [->|Hok%bearer_mismatch_false]; [done|].
        rewrite Hok. apply orb_true_r.
    + split; [unfold status; by rewrite Hcode|]. done.
Qed.

Lemma webhook_publish_witness :
  (∃ w', webhookReceiver (get_request "/webhook" []) new_response (new_server "")
           = Some (w', new_server "") ∧ status w' = StatusMethodNotAllowed) ∧
  (∃ w' s', webhookReceiver (post_webhook None "hello") new_response (new_server "")
           = Some (w', s') ∧ status w' = StatusOK ∧ buf (messages s') = ["hello"] ∧
           fanOut s' = ∅).
Proof.
  destruct (webhook_publish (get_request "/webhook" []) new_response (new_server "")
              (wf_new_server "") eq_refl) as [H405 _].
  destruct (webhook_publish (post_webhook None "hello") new_response (new_server "")
              (wf_new_server "") eq_refl) as [_ H200].
  split.
  - apply H405. discriminate.
  - destruct (H200 eq_refl (or_introl eq_refl) "hello" eq_refl) as (w' & s' & H); [vm_compute; lia|].
    exists w', s'. destruct H as (? & ? & ? & ? & _). done.
Defined.

(** ** The stream handler *)

Lemma logOutput_step_locked b ss s :
  mu s = true → s_pc ss ≠ Streaming → logOutput_step b ss s = None.
Proof.
  intros Hmu Hpc. unfold logOutput_step. destruct (s_pc ss); [done| |done].
  unfold removeListener, Lock. by rewrite Hmu.
Qed.

Lemma logOutput_step_streaming b ss s ss' s' :
  s_pc ss = Streaming → logOutput_step b ss s = Some (ss', s') →
  s_ch ss' = s_ch ss ∧ s_idx ss' = s_idx ss ∧
  fanOut s' = fanOut s ∧ workers s' = workers s ∧
  ∀ ch, ch ≠ s_ch ss → heap s' !! ch = heap s !! ch.
Proof.
  intros Hpc. unfold logOutput_step. rewrite Hpc.
  destruct (heap s !! s_ch ss) as [c|]; simpl; [|done].
  destruct (recv c) as [[msg c']|].
  - destruct (push b (s_conn ss) msg) as [conn [e|]]; intros [= <- <-]; simpl;
      repeat split; try done; intros ch Hne; by rewrite list_lookup_insert_ne.
  - destruct (drained c); [|done]. by intros [= <- <-].
Qed.

Lemma ServeHTTP_locked now upgrade_ok r w s w' s' ss :
  mu s = true → ServeHTTP now upgrade_ok r w s = Some (w', s', ss) →
  ss = None ∧ fanOut s' = fanOut s ∧ heap s' = heap s ∧
  workers s' = (workers s ++ [AtRecv])%list.
Proof.
  intros Hmu Hs.
  assert (ss = None) as ->.
  { revert Hs. unfold ServeHTTP.
    destruct (Path r =? "/")%string.
    { destruct (serveIndex _ _ _ _) as [[w1 s1]|]; simpl; [|done]. by intros [= _ _ <-]. }
    destruct (Path r =? "/logs")%string.
    { unfold logOutput.
      destruct (negb (Method r =? "GET")%string); [by intros [= _ _ <-]|].
      destruct (Request_Cookie r "idx") as [cookie [e|]]; simpl.
      - destruct e; by intros [= _ _ <-].
      - destruct (parseCookie cookie =? 0); [by intros [= _ _ <-]|].
        unfold getListener, Lock. simpl. by rewrite Hmu. }
    destruct (Path r =? "/webhook")%string.
    { destruct (webhookReceiver _ _ _) as [[w1 s1]|]; simpl; [|done]. by intros [= _ _ <-]. }
    by intros [= _ _ <-]. }
  split; [done|].
  apply ServeHTTP_server in Hs as [->|[[ch Ha]|(body & q & _ & _ & ->)]]; try done.
  apply addListener_Some in Ha as [Hfree _]. simpl in Hfree. congruence.
Qed.

Lemma stuck_step e x x' k idx :
  stuck x k idx → step e x = Some x' →
  stuck x' k idx ∧ sessions x' !! k = sessions x !! k ∧
  fanOut (srv x') = fanOut (srv x).
Proof.
  intros (Hwf & (ss & Hk & Hpc & Hidx) & Hreg & i & m & pending & Hw & Hne & Hfull) Hstep.
  pose proof (wf_step _ _ _ Hwf Hstep) as Hwf'.
  assert (mu (srv x) = true) as Hmu.
  { destruct Hwf as (_ & _ & [Hheld _] & _). by eapply Hheld. }
  assert (∀ j w, workers (srv x) !! j = Some w → holds_lock w = true → j = i) as Honly.
  { intros j w Hj Hh. destruct Hwf as (_ & _ & [_ Huniq] & _). by eapply Huniq. }
  destruct e as [now upgrade_ok r|j pick|k' push_ok]; simpl in Hstep.
  - destruct (ServeHTTP _ _ _ _ _) as [[[w s] ss0]|] eqn:Hs; simpl in Hstep; [|done].
    injection Hstep as <-.
    apply ServeHTTP_locked in Hs as (-> & Hf & Hh & Hws); [|done]. simpl in *.
    rewrite (app_nil_r (sessions x)). split; [|by split].
    split; [done|]. split; [eauto|]. simpl. split; [by rewrite Hf|].
    exists i, m, pending. split; [rewrite Hws; by apply lookup_app_l_Some|].
    split; [done|]. intros idx' ch' Hin. destruct (Hfull _ _ Hin) as [Hroom Hread].
    split; [|done]. unfold room. by rewrite Hh.
  - destruct (run j pick (srv x)) as [s|] eqn:Hr; simpl in Hstep; [|done].
    injection Hstep as <-. simpl in *. apply run_iff in Hr.
    destruct Hr as [m0 q Hj Hb|m0 Hj Hfree|m0 pending0 idx0 ch0 c Hj Hp Hc Hcl Hlt|m0 Hj].
    + simpl in *. split; [|done]. split; [done|]. split; [eauto|]. split; [done|].
      exists i, m, pending. split; [|done].
      simpl. rewrite list_lookup_insert_ne; [done|]. intros ->. congruence.
    + congruence.
    + assert (j = i) as -> by (by eapply Honly).
      rewrite Hw in Hj. injection Hj as <- <-.
      destruct (Hfull idx0 ch0) as [Hroom _]; [apply list_elem_of_lookup; eauto|].
      unfold room in Hroom. rewrite Hc in Hroom. lia.
    + assert (j = i) as -> by (by eapply Honly).
      rewrite Hw in Hj. injection Hj as _ Hnil. by destruct Hne.
  - destruct (sessions x !! k') as [ss1|] eqn:Hk'; simpl in Hstep; [|done].
    destruct (logOutput_step _ _ _) as [[ss2 s]|] eqn:Hl; simpl in Hstep; [|done].
    injection Hstep as <-. simpl in *.
    assert (s_pc ss1 = Streaming) as Hstr.
    { destruct (s_pc ss1) eqn:Hpc1; [done| |];
        rewrite logOutput_step_locked in Hl; try done; by rewrite Hpc1. }
    apply logOutput_step_streaming in Hl as (Hch & Hid & Hf & Hws & Hheap); [|done].
    assert (k' ≠ k) as Hkk by (intros ->; congruence).
    assert (∀ idx' ch', (idx', ch') ∈ pending → ch' ≠ s_ch ss1) as Hother.
    { intros idx' ch' Hin ->. destruct (Hfull _ _ Hin) as [_ Hread]. by eapply Hread. }
    split; [|split; [by rewrite list_lookup_insert_ne|done]].
    split; [done|]. simpl. split; [exists ss; by rewrite list_lookup_insert_ne|].
    split; [by rewrite Hf|].
    exists i, m, pending. split; [by rewrite Hws|]. split; [done|].
    intros idx' ch' Hin. destruct (Hfull _ _ Hin) as [Hroom Hread]. split.
    + unfold room. rewrite Hheap; [done|]. by eapply Hother.
    + intros k'' ss'' [(<- & <- & _)|[_ Hk'']]%list_lookup_insert_Some Hss.
      * rewrite Hch in Hss. by destruct (Hother _ _ Hin).
      * by eapply Hread.
Qed.

Lemma stuck_exec es : ∀ x x' k idx,
  stuck x k idx → exec es x = Some x' →
  stuck x' k idx ∧ sessions x' !! k = sessions x !! k ∧
  fanOut (srv x') = fanOut (srv x).
Proof.
  induction es as [|e es IH]; intros x x' k idx Hstuck; simpl.
  - by intros [= <-].
  - destruct (step e x) as [x1|] eqn:Hs; simpl; [|done]. intros Hex.
    destruct (stuck_step _ _ _ _ _ Hstuck Hs) as (Hstuck1 & Hk1 & Hf1).
    destruct (IH _ _ _ _ Hstuck1 Hex) as (Hstuck' & Hk' & Hf').
    split; [done|]. by rewrite Hk', Hf'.
Qed.

Lemma stuck_reachable : exec stuck_events (new_world "") = Some stuck_world.
Proof. vm_compute. reflexivity. Qed.

Lemma stuck_world_stuck : stuck stuck_world 0 101.
Proof.
  assert (sessions stuck_world =
          [Session 101 0 {| conn_open := false; frames := [] |} Removing]) as Hss
    by (vm_compute; reflexivity).
  split; [apply reachable_wf; exists "", stuck_events; apply stuck_reachable|].
  split; [eexists; rewrite Hss; by repeat split|].
  split; [exists 0%nat; by vm_compute|].
  exists 0%nat, "z", [(101, 0%nat)]. split; [by vm_compute|]. split; [done|].
  intros idx' ch' [= -> ->]%list_elem_of_singleton. split; [by vm_compute|].
  rewrite Hss. intros [|k'] ss'; simpl; [|done]. by intros [= <-].
Qed.

(** C7 as stated fails twice.  After a failed push the handler closes
    the connection and removes the entry, and the queue is still open.
    And the removal does not always happen: in a state the server
    reaches, the handler has left its loop, a worker holds the mutex
    inside a fan-out that waits on the handler's own full queue, and
    whatever happens from there the entry stays registered and the handler
    stays where it is. *)
Lemma stream_cleanup_counterexample :
  (∃ x ss c,
     exec demo_disconnect (new_world "") = Some x ∧
     sessions x !! 0%nat = Some ss ∧
     s_pc ss = Returned ∧ conn_open (s_conn ss) = false ∧
     fanOut (srv x) !! s_idx ss = None ∧
     heap (srv x) !! s_ch ss = Some c ∧ closed c = false) ∧
  (∃ ss,
     exec stuck_events (new_world "") = Some stuck_world ∧
     sessions stuck_world !! 0%nat = Some ss ∧
     s_pc ss = Removing ∧ s_idx ss = 101 ∧
     ∀ es x', exec es stuck_world = Some x' →
              fanOut (srv x') !! 101 = Some 0%nat ∧ sessions x' !! 0%nat = Some ss).
Proof.
  split.
  - eexists _, _, _. split; [vm_compute; reflexivity|].
    split; [reflexivity|]. repeat split; reflexivity.
  - assert (sessions stuck_world !! 0%nat =
            Some (Session 101 0 {| conn_open := false; frames := [] |} Removing)) as Hss
      by (vm_compute; reflexivity).
    assert (fanOut (srv stuck_world) !! 101 = Some 0%nat) as Hreg
      by (vm_compute; reflexivity).
    eexists. split; [apply stuck_reachable|]. split; [exact Hss|].
    split; [done|]. split; [done|].
    intros es x' Hex.
    destruct (stuck_exec es _ _ _ _ stuck_world_stuck Hex) as (_ & Hk & Hf).
    split; [rewrite Hf; exact Hreg|rewrite Hk; exact Hss].
Qed.

(** C7, amended: whenever the delivery loop of [logOutput] is left, the
    connection has been closed and the only step left to the handler is
    [removeListener] of its identifier.  That step needs the mutex: with
    the mutex free it removes the identifier from the registry and the
    handler returns, which it does in no other way; with the mutex held
    it waits, and when the fan-out that holds the mutex is itself waiting
    on full queues that nobody reads, the entry stays registered whatever
    happens next.  The subscriber's queue is not closed (nothing closes
    a queue): it is only dropped from the registry, and for that reason
    the loop is left on a failed push only. *)
Theorem stream_cleanup ss s :
  wf s →
  (∀ push_ok ss' s',
     logOutput_step push_ok ss s = Some (ss', s') →
     s_idx ss' = s_idx ss ∧ s_ch ss' = s_ch ss ∧
     (s_pc ss = Streaming → s_pc ss' ≠ Streaming →
        s_pc ss' = Removing ∧ conn_open (s_conn ss') = false ∧ push_ok = false) ∧
     (s_pc ss = Removing →
        s_pc ss' = Returned ∧ fanOut s' = delete (s_idx ss) (fanOut s) ∧
        fanOut s' !! s_idx ss = None ∧ s_conn ss' = s_conn ss ∧ heap s' = heap s) ∧
     (s_pc ss' = Returned → s_pc ss = Removing) ∧
     (∀ c, heap s' !! s_ch ss = Some c → closed c = false)) ∧
  (s_pc ss = Removing → mu s = false →
   ∀ push_ok, ∃ ss' s', logOutput_step push_ok ss s = Some (ss', s') ∧
                        s_pc ss' = Returned ∧ fanOut s' !! s_idx ss = None) ∧
  (s_pc ss = Removing → mu s = true → ∀ push_ok, logOutput_step push_ok ss s = None) ∧
  (∀ x k es x',
     srv x = s → sessions x !! k = Some ss → stuck x k (s_idx ss) →
     exec es x = Some x' →
     sessions x' !! k = Some ss ∧ fanOut (srv x') !! s_idx ss = fanOut s !! s_idx ss ∧
     is_Some (fanOut (srv x') !! s_idx ss)).
Proof.
  intros Hwf. split; [|split; [|split]].
  - intros push_ok ss' s' Hstep.
    assert (∀ c, heap s' !! s_ch ss = Some c → closed c = false) as Hopen.
    { intros c Hc. pose proof (wf_logOutput_step _ _ _ _ _ Hwf Hstep) as (_ & _ & _ & _ & Hheap).
      by destruct (Hheap _ _ Hc). }
    revert Hstep. unfold logOutput_step.
    destruct (s_pc ss) eqn:Hpc; [| |done].
    + destruct (heap s !! s_ch ss) as [c|] eqn:Hc; simpl; [|done].
      assert (closed c = false) as Hcl.
      { destruct Hwf as (_ & _ & _ & _ & Hheap). by destruct (Hheap _ _ Hc). }
      destruct (recv c) as [[msg c']|] eqn:Hr.
      * destruct push_ok; simpl; intros [= <- <-]; simpl; repeat split; done.
      * unfold drained. unfold recv in Hr. destruct (buf c); [|done]. by rewrite Hcl.
    + destruct (removeListener (s_idx ss) s) as [s1|] eqn:Hrm; simpl; [|done].
      intros [= <- <-]. simpl.
      apply removeListener_Some in Hrm as [_ ->]. simpl.
      repeat split; try done. apply lookup_delete_eq.
  - intros Hpc Hfree push_ok. unfold logOutput_step. rewrite Hpc.
    unfold removeListener, Lock. rewrite Hfree. simpl.
    eexists _, _. split; [done|]. simpl. split; [done|]. apply lookup_delete_eq.
  - intros Hpc Hmu push_ok. apply logOutput_step_locked; [done|]. by rewrite Hpc.
  - intros x k es x' <- Hk Hstuck Hex.
    destruct (stuck_exec es _ _ _ _ Hstuck Hex) as (_ & Hk' & Hf).
    rewrite Hk', Hf. split; [done|]. split; [done|]. apply Hstuck.
Qed.

Lemma wf_stalled_server : wf stalled_server.
Proof.
  apply wf_intro.
  - split; simpl.
    + intros idx ch [<- <-]%lookup_singleton_Some. simpl. lia.
    + intros i j ch [<- _]%lookup_singleton_Some [<- _]%lookup_singleton_Some. done.
  - intros [|[|i]] w; simpl; [intros [= <-]|done|done]. simpl. split.
    + apply NoDup_singleton.
    + intros idx ch [= -> ->]%list_elem_of_singleton. done.
  - split.
    + intros [|[|i]] w; simpl; done.
    + intros [|[|i]] [|[|j]] wi wj; simpl; done.
  - done.
  - intros [|[|ch]] c; simpl; [intros [= <-]; done|done|done].
Qed.

Lemma stream_cleanup_witness :
  (let s := Server "" (make msgBuffer) {[101 := 0%nat]} false
              [Chan ["a"] msgBuffer false] [AtRecv] in
   let ss := Session 101 0 {| conn_open := true; frames := [] |} Streaming in
   ∃ ss1 s1 ss2 s2,
     logOutput_step false ss s = Some (ss1, s1) ∧
     s_pc ss1 = Removing ∧ conn_open (s_conn ss1) = false ∧
     logOutput_step true ss1 s1 = Some (ss2, s2) ∧
     s_pc ss2 = Returned ∧ fanOut s2 !! 101 = None) ∧
  (let ss := Session 101 0 {| conn_open := false; frames := [] |} Removing in
   let x := World stalled_server [ss] [] in
   logOutput_step true ss stalled_server = None ∧
   ∃ x', exec [EvServe 0 (Refused 400) (post_webhook None "y")] x = Some x' ∧
         sessions x' !! 0%nat = Some ss ∧ fanOut (srv x') !! 101 = Some 0%nat).
Proof.
  split.
  - intros s ss.
    assert (wf s) as Hwf.
    { apply wf_intro.
      - split; simpl.
        + intros idx ch [<- <-]%lookup_singleton_Some. simpl. lia.
        + intros i j ch [<- _]%lookup_singleton_Some [<- _]%lookup_singleton_Some. done.
      - intros [|[|i]] w; simpl; [intros [= <-]; done|done|done].
      - split.
        + intros [|[|i]] w; simpl; [intros [= <-]; done|done|done].
        + intros [|[|i]] j wi wj; simpl; [intros [= <-]; done|done|done].
      - done.
      - intros [|[|ch]] c; simpl; [intros [= <-]; done|done|done]. }
    destruct (logOutput_step false ss s) as [[ss1 s1]|] eqn:H1; [|discriminate].
    destruct (stream_cleanup ss s Hwf) as [Hstep _].
    destruct (Hstep false ss1 s1 H1) as (Hidx & _ & Hexit & _).
    assert (s_pc ss1 ≠ Streaming) as Hleft.
    { vm_compute in H1. injection H1 as <- <-. discriminate. }
    destruct (Hexit eq_refl Hleft) as (Hpc1 & Hclosed & _).
    assert (wf s1) as Hwf1 by (by eapply wf_logOutput_step).
    destruct (stream_cleanup ss1 s1 Hwf1) as (_ & Hdefer & _).
    assert (mu s1 = false) as Hfree1.
    { vm_compute in H1. injection H1 as <- <-. reflexivity. }
    destruct (Hdefer Hpc1 Hfree1 true) as (ss2 & s2 & H2 & Hpc2 & Hgone).
    exists ss1, s1, ss2, s2. rewrite Hidx in Hgone. done.
  - intros ss x.
    destruct (stream_cleanup ss stalled_server wf_stalled_server) as (_ & _ & Hwait & Hstay).
    split; [by apply Hwait|].
    assert (stuck x 0 101) as Hstuck.
    { split; [apply wf_stalled_server|].
      split; [by exists ss|]. split; [by exists 0%nat|].
      exists 0%nat, "m", [(101, 0%nat)]. split; [done|]. split; [done|].
      intros idx' ch' [= -> ->]%list_elem_of_singleton.
      split; [vm_compute; reflexivity|].
      intros [|k'] ss'; simpl; [|done]. by intros [= <-]. }
    destruct (exec [EvServe 0 (Refused 400) (post_webhook None "y")] x) as [x'|] eqn:Hex;
      [|by vm_compute in Hex].
    destruct (Hstay x 0%nat _ x' eq_refl eq_refl Hstuck Hex) as (Hk & Hf & _).
    exists x'. split; [done|]. split; [done|]. etrans; [exact Hf|]. reflexivity.
Defined.

(** ** [ParseInt] reads decimal notation, [FormatInt] writes it *)

Lemma is_digit_val c : is_digit c = true → 0 ≤ digit_val c ≤ 9.
Proof.
  unfold is_digit, digit_val. intros [H1 H2]%andb_true_iff.
  apply Nat.leb_le in H1, H2. lia.
Qed.

Lemma is_digit_not_sign c :
  is_digit c = true → Ascii.eqb c "+"%char = false ∧ Ascii.eqb c "-"%char = false.
Proof.
  intros Hd. split.
  - destruct (Ascii.eqb_spec c "+"%char) as [->|]; [discriminate|done].
  - destruct (Ascii.eqb_spec c "-"%char) as [->|]; [discriminate|done].
Qed.

Lemma digits_value_ge s : ∀ n, 0 ≤ n → all_digits s = true → n ≤ digits_value s n.
Proof.
  induction s as [|c s IH]; intros n Hn; simpl; [lia|].
  intros [Hc Hs]%andb_true_iff. apply is_digit_val in Hc.
  etrans; [|apply IH; [lia|done]]. lia.
Qed.

Lemma parse_digits_spec s : ∀ n r,
  0 ≤ n ≤ maxUint64 →
  parse_digits s n = Some r ↔
  all_digits s = true ∧ digits_value s n = r ∧ r ≤ maxUint64.
Proof.
  induction s as [|c s IH]; intros n r Hn; simpl.
  - split; [intros [= <-]; split; [done|split; [done|lia]]|].
    intros (_ & <- & _). done.
  - destruct (is_digit c) eqn:Hc; simpl.
    2:{ split; [done|]. intros (? & _). done. }
    pose proof (is_digit_val c Hc) as Hv.
    destruct (Z.ltb_spec maxUint64 (n * 10 + digit_val c)) as [Hover|Hfit].
    + split; [done|]. intros (Hs & <- & Hle).
      pose proof (digits_value_ge s (n * 10 + digit_val c) ltac:(lia) Hs). lia.
    + apply IH. lia.
Qed.

Lemma ParseUint_spec s r :
  ParseUint s = Some r ↔
  s ≠ "" ∧ all_digits s = true ∧ digits_value s 0 = r ∧ r ≤ maxUint64.
Proof.
  unfold ParseUint. destruct s as [|c s].
  - split; [done|]. intros [? _]. done.
  - rewrite parse_digits_spec by (unfold maxUint64; lia). split; [|tauto].
    intros ?. split; [done|tauto].
Qed.

Lemma ParseInt_spec v z : ParseInt v = Some z ↔ decimal_int64 v z.
Proof.
  split.
  - unfold ParseInt. destruct v as [|c v]; [done|].
    destruct (Ascii.eqb_spec c "-"%char) as [->|Hm]; cbn [orb negb andb].
    + rewrite orb_true_r.
      destruct (ParseUint v) as [un|] eqn:Hp; [|done].
      apply ParseUint_spec in Hp as (Hne & Hd & Hval & Hle).
      destruct (Z.ltb_spec (2 ^ 63) un); [done|]. intros [= <-].
      pose proof (digits_value_ge v 0 ltac:(lia) Hd).
      exists "-", v. repeat split; try done; auto.
      * simpl. by rewrite Hval.
      * lia.
      * lia.
    + rewrite orb_false_r.
      destruct (Ascii.eqb_spec c "+"%char) as [->|Hp'].
      * destruct (ParseUint v) as [un|] eqn:Hp; [|done].
        apply ParseUint_spec in Hp as (Hne & Hd & Hval & Hle).
        destruct (Z.leb_spec (2 ^ 63) un); [done|]. intros [= <-].
        pose proof (digits_value_ge v 0 ltac:(lia) Hd).
        exists "+", v. repeat split; try done; auto. lia.
      * destruct (ParseUint (String c v)) as [un|] eqn:Hp; [|done].
        apply ParseUint_spec in Hp as (Hne & Hd & Hval & Hle).
        destruct (Z.leb_spec (2 ^ 63) un); [done|]. intros [= <-].
        pose proof (digits_value_ge (String c v) 0 ltac:(lia) Hd).
        exists "", (String c v). repeat split; try done; auto. lia.
  - intros (sign & ds & -> & Hsign & Hne & Hd & -> & Hlo & Hhi).
    assert (0 ≤ digits_value ds 0) as Hpos by (by apply digits_value_ge).
    assert (ParseUint ds = Some (digits_value ds 0) ∨ 2 ^ 64 ≤ digits_value ds 0) as Hp.
    { destruct (Z.le_gt_cases (2 ^ 64) (digits_value ds 0)); [by right|left].
      apply ParseUint_spec. repeat split; try done. unfold maxUint64. lia. }
    destruct Hsign as [->|[->| ->]]; cbn [append String.eqb Ascii.eqb Bool.eqb] in *.
    + destruct Hp as [Hp|Hbig]; [|lia].
      destruct ds as [|c ds]; [done|].
      apply andb_true_iff in Hd as [Hc Hds].
      destruct (is_digit_not_sign c Hc) as [Hplus Hminus].
      change ("" ++ String c ds)%string with (String c ds).
      unfold ParseInt. rewrite Hplus, Hminus. cbn [orb negb andb]. rewrite Hp.
      destruct (Z.leb_spec (2 ^ 63) (digits_value (String c ds) 0)); [lia|done].
    + destruct Hp as [Hp|Hbig]; [|lia].
      change ("+" ++ ds)%string with (String "+"%char ds).
      unfold ParseInt. cbn [Ascii.eqb Bool.eqb orb negb andb]. rewrite Hp.
      destruct (Z.leb_spec (2 ^ 63) (digits_value ds 0)); [lia|done].
    + destruct Hp as [Hp|Hbig]; [|lia].
      change ("-" ++ ds)%string with (String "-"%char ds).
      unfold ParseInt. cbn [Ascii.eqb Bool.eqb orb negb andb]. rewrite Hp.
      destruct (Z.ltb_spec (2 ^ 63) (digits_value ds 0)); [lia|done].
Qed.

Lemma digit_char_ok d :
  0 ≤ d ≤ 9 → is_digit (digit_char d) = true ∧ digit_val (digit_char d) = d.
Proof.
  intros Hd.
  assert (d = 0 ∨ d = 1 ∨ d = 2 ∨ d = 3 ∨ d = 4 ∨ d = 5 ∨ d = 6 ∨ d = 7 ∨ d = 8 ∨ d = 9)
    as Hcases by lia.
  repeat (destruct Hcases as [->|Hcases]; [by vm_compute|]). subst. by vm_compute.
Qed.

Lemma format_pos_spec fuel : ∀ n acc,
  0 ≤ n < 2 ^ Z.of_nat (S fuel) →
  format_pos (S fuel) n acc ≠ "" ∧
  all_digits (format_pos (S fuel) n acc) = all_digits acc ∧
  digits_value (format_pos (S fuel) n acc) 0 = digits_value acc n.
Proof.
  induction fuel as [|fuel IH]; intros n acc Hn.
  - assert (n < 10) as Hlt by (change (2 ^ Z.of_nat 1) with 2 in Hn; lia).
    assert (n mod 10 = n) as Hmod by (apply Z.mod_small; lia).
    destruct (digit_char_ok n ltac:(lia)) as [Hd Hv].
    cbn [format_pos]. rewrite Hmod.
    destruct (n <? 10); (split; [done|]); simpl; rewrite Hd, Hv; done.
  - pose proof (Z.mod_pos_bound n 10 ltac:(lia)) as Hm.
    destruct (digit_char_ok (n mod 10) ltac:(lia)) as [Hd Hv].
    change (format_pos (S (S fuel)) n acc) with
      (let acc' := String (digit_char (n mod 10)) acc in
       if n <? 10 then acc' else format_pos (S fuel) (n / 10) acc').
    cbv zeta. destruct (Z.ltb_spec n 10) as [Hlt|Hge].
    + split; [done|]. simpl. rewrite Hd, Hv, Z.mod_small by lia. done.
    + destruct (IH (n / 10) (String (digit_char (n mod 10)) acc)) as (Hne & Hall & Hval).
      { split; [apply Z.div_pos; lia|].
        apply Z.div_lt_upper_bound; [lia|].
        rewrite (Nat2Z.inj_succ (S fuel)), Z.pow_succ_r in Hn by lia. lia. }
      split; [done|]. rewrite Hall, Hval. simpl. rewrite Hd, Hv.
      split; [done|]. f_equal. pose proof (Z.div_mod n 10 ltac:(lia)). lia.
Qed.

Lemma FormatInt_decimal z : - 2 ^ 63 ≤ z < 2 ^ 63 → decimal_int64 (FormatInt z) z.
Proof.
  intros Hz. unfold FormatInt.
  assert (0 ≤ Z.abs z < 2 ^ Z.of_nat (S (Z.to_nat (Z.log2 (Z.abs z))))) as Hfuel.
  { split; [lia|]. rewrite Nat2Z.inj_succ, Z2Nat.id by apply Z.log2_nonneg.
    destruct (Z.eq_dec (Z.abs z) 0) as [->|Hnz]; [done|].
    apply Z.log2_spec. lia. }
  destruct (format_pos_spec _ (Z.abs z) "" Hfuel) as (Hne & Hall & Hval).
  change (all_digits "") with true in Hall.
  change (digits_value "" (Z.abs z)) with (Z.abs z) in Hval.
  destruct (Z.ltb_spec z 0) as [Hneg|Hpos].
  - exists "-", (format_pos (S (Z.to_nat (Z.log2 (Z.abs z)))) (Z.abs z) "").
    repeat split; try done; auto; try lia.
    cbn [String.eqb Ascii.eqb Bool.eqb]. rewrite Hval. lia.
  - exists "", (format_pos (S (Z.to_nat (Z.log2 (Z.abs z)))) (Z.abs z) "").
    repeat split; try done; auto; try lia.
    cbn [String.eqb]. rewrite Hval. lia.
Qed.

(** The cookie written for an identifier reads back as that identifier. *)
Lemma parseCookie_FormatInt z :
  - 2 ^ 63 ≤ z < 2 ^ 63 →
  parseCookie (Some {| Name := "idx"; Value := FormatInt z |}) = z.
Proof.
  intros Hz%FormatInt_decimal%ParseInt_spec. simpl. by rewrite Hz.
Qed.

(** ** Cookies on [/logs] and [/] *)

Lemma logOutput_no_cookie upgrade_ok r w s :
  Method r = "GET" → Request_Cookie r "idx" = (None, Some ErrNoCookie) →
  logOutput upgrade_ok r w s = Some (WriteHeader StatusUnauthorized w, s, None).
Proof. intros Hm Hc. unfold logOutput. by rewrite Hm, Hc. Qed.

Lemma logOutput_zero upgrade_ok r w s c :
  Method r = "GET" → Request_Cookie r "idx" = (Some c, None) →
  parseCookie (Some c) = 0 →
  logOutput upgrade_ok r w s = Some (WriteHeader StatusUnauthorized w, s, None).
Proof. intros Hm Hc Hz. unfold logOutput. by rewrite Hm, Hc, Hz. Qed.

Lemma logOutput_lookup upgrade_ok r w s c :
  Method r = "GET" → Request_Cookie r "idx" = (Some c, None) →
  parseCookie (Some c) ≠ 0 → mu s = false →
  logOutput upgrade_ok r w s =
  match fanOut s !! parseCookie (Some c) with
  | None => Some (WriteHeader StatusBadRequest w, s, None)
  | Some ch =>
      match upgrade_ok with
      | Upgraded =>
          Some (WriteHeader StatusSwitchingProtocols w, s,
                Some (Session (parseCookie (Some c)) ch
                        {| conn_open := true; frames := [] |} Streaming))
      | Refused c0 =>
          Some (WriteHeader StatusInternalServerError (WriteHeader c0 w), s, None)
      end
  end.
Proof.
  intros Hm Hc Hnz%Z.eqb_neq Hfree. unfold logOutput. rewrite Hm, Hc, Hnz. simpl.
  by rewrite getListener_unlocked.
Qed.

(** C8 as stated fails for the cookie value "0": it has valid decimal
    format and maps to no registry entry, and the reply is 401, not 400. *)
Lemma logs_zero_cookie_counterexample :
  decimal_int64 "0" 0 ∧
  fanOut (new_server "") !! 0 = None ∧
  ∃ w', logOutput Upgraded (get_request "/logs" [idx_cookie "0"]) new_response (new_server "")
          = Some (w', new_server "", None) ∧
        status w' = StatusUnauthorized ∧ status w' ≠ StatusBadRequest.
Proof.
  split; [by apply ParseInt_spec|]. split; [reflexivity|].
  eexists. split; [reflexivity|]. split; [reflexivity|]. vm_compute. lia.
Qed.

(** C8, amended: on a GET to [/logs], a missing [idx] cookie and one whose
    value is not a decimal 64-bit integer get 401; a cookie whose value is
    a decimal integer other than zero and maps to no registry entry gets
    400.  In each of these cases the server is left as it was and no
    session is started. *)
Theorem logs_rejections upgrade_ok r w s :
  code w = None → Method r = "GET" →
  (Request_Cookie r "idx" = (None, Some ErrNoCookie) →
     ∃ w', logOutput upgrade_ok r w s = Some (w', s, None) ∧
           status w' = StatusUnauthorized) ∧
  (∀ c, Request_Cookie r "idx" = (Some c, None) →
     (∀ z, ¬ decimal_int64 (Value c) z) →
     ∃ w', logOutput upgrade_ok r w s = Some (w', s, None) ∧
           status w' = StatusUnauthorized) ∧
  (∀ c idx, Request_Cookie r "idx" = (Some c, None) → decimal_int64 (Value c) idx →
     idx ≠ 0 → fanOut s !! idx = None → mu s = false →
     ∃ w', logOutput upgrade_ok r w s = Some (w', s, None) ∧
           status w' = StatusBadRequest).
Proof.
  intros Hcode Hm. split; [|split].
  - intros Hc. eexists. split; [by apply logOutput_no_cookie|by apply status_WriteHeader].
  - intros c Hc Hbad. eexists. split; [|by apply status_WriteHeader].
    eapply logOutput_zero; [done..|]. simpl.
    destruct (ParseInt (Value c)) as [z|] eqn:Hp; [|done].
    apply ParseInt_spec in Hp. by destruct (Hbad z).
  - intros c idx Hc Hp%ParseInt_spec Hnz Hnone Hfree.
    eexists. split; [|by apply status_WriteHeader].
    assert (parseCookie (Some c) = idx) as Hpc by (simpl; by rewrite Hp).
    rewrite (logOutput_lookup upgrade_ok r w s c); try done; rewrite Hpc; [|done].
    by rewrite Hnone.
Qed.

Lemma logs_rejections_witness :
  let s := srv demo in
  (∃ w', logOutput Upgraded (get_request "/logs" []) new_response s = Some (w', s, None) ∧
         status w' = StatusUnauthorized) ∧
  (∃ w', logOutput Upgraded (get_request "/logs" [idx_cookie "10x"]) new_response s
           = Some (w', s, None) ∧ status w' = StatusUnauthorized) ∧
  (∃ w', logOutput Upgraded (get_request "/logs" [idx_cookie "77"]) new_response s
           = Some (w', s, None) ∧ status w' = StatusBadRequest).
Proof.
  intros s. split; [|split].
  - destruct (logs_rejections Upgraded (get_request "/logs" []) new_response s eq_refl eq_refl)
      as (H & _ & _).
    apply H. reflexivity.
  - destruct (logs_rejections Upgraded (get_request "/logs" [idx_cookie "10x"]) new_response s
                eq_refl eq_refl) as (_ & H & _).
    apply (H (idx_cookie "10x")); [reflexivity|].
    intros z Hz%ParseInt_spec. discriminate.
  - destruct (logs_rejections Upgraded (get_request "/logs" [idx_cookie "77"]) new_response s
                eq_refl eq_refl) as (_ & _ & H).
    apply (H (idx_cookie "77") 77); try reflexivity; [by apply ParseInt_spec|discriminate].
Defined.

(** C10: [parseCookie] gives 0 for a nil cookie and for every value that
    [ParseInt] rejects; [logOutput] takes 0 for a missing cookie.  So a GET
    to [/logs] whose cookie parses to 0, the literal "0" included, gets
    401 whatever the registry holds, and never 400. *)
Theorem logs_zero_identifier :
  parseCookie None = 0 ∧
  (∀ c, (∀ z, ¬ decimal_int64 (Value c) z) → parseCookie (Some c) = 0) ∧
  (∀ c z, decimal_int64 (Value c) z → parseCookie (Some c) = z) ∧
  decimal_int64 "0" 0 ∧
  (∀ upgrade_ok r w s c,
     code w = None → Method r = "GET" →
     Request_Cookie r "idx" = (Some c, None) → parseCookie (Some c) = 0 →
     ∃ w', logOutput upgrade_ok r w s = Some (w', s, None) ∧
           status w' = StatusUnauthorized ∧ status w' ≠ StatusBadRequest).
Proof.
  split; [done|]. split; [|split; [|split]].
  - intros c Hbad. simpl. destruct (ParseInt (Value c)) as [z|] eqn:Hp; [|done].
    apply ParseInt_spec in Hp. by destruct (Hbad z).
  - intros c z Hp%ParseInt_spec. simpl. by rewrite Hp.
  - by apply ParseInt_spec.
  - intros upgrade_ok r w s c Hcode Hm Hc Hz. eexists.
    split; [by eapply logOutput_zero|].
    rewrite status_WriteHeader by done. split; [done|]. vm_compute. lia.
Qed.

Lemma logs_zero_identifier_witness :
  let s := set_fanOut {[0 := 0%nat]} (set_heap [make msgBuffer] (new_server "")) in
  fanOut s !! 0 = Some 0%nat ∧
  ∃ w', logOutput Upgraded (get_request "/logs" [idx_cookie "0"]) new_response s
          = Some (w', s, None) ∧
        status w' = StatusUnauthorized ∧ status w' ≠ StatusBadRequest.
Proof.
  intros s. split; [reflexivity|].
  destruct logs_zero_identifier as (_ & _ & _ & _ & Hlogs).
  apply (Hlogs Upgraded (get_request "/logs" [idx_cookie "0"]) new_response s (idx_cookie "0"));
    try reflexivity.
Defined.

Lemma serveIndex_register now r w s :
  Method r = "GET" → mu s = false →
  (Request_Cookie r "idx" = (None, Some ErrNoCookie) ∨
   ∃ c, Request_Cookie r "idx" = (Some c, None) ∧ fanOut s !! parseCookie (Some c) = None) →
  serveIndex now r w s =
  Some (Write_indexHtml
          (WriteHeader StatusOK
             (Header_Set_ContentType "text/html"
                (SetCookie {| Name := "idx"; Value := FormatInt now |} w))),
        Server (bearer s) (messages s) (<[now := length (heap s)]> (fanOut s)) false
          (heap s ++ [make msgBuffer]) (workers s)).
Proof.
  intros Hm Hfree Hcookie. unfold serveIndex. rewrite Hm. simpl.
  assert (addListener now s =
          Some (now, length (heap s),
                Server (bearer s) (messages s) (<[now := length (heap s)]> (fanOut s)) false
                  (heap s ++ [make msgBuffer]) (workers s))) as Ha
    by (by apply addListener_Some).
  destruct Hcookie as [Hc|(c & Hc & Hnone)]; rewrite Hc; simpl.
  - by rewrite Ha.
  - rewrite getListener_unlocked by done. simpl in Hnone. simpl. rewrite Hnone. simpl.
    by rewrite Ha.
Qed.

Lemma serveIndex_reuse now r w s c ch :
  Method r = "GET" → mu s = false →
  Request_Cookie r "idx" = (Some c, None) → fanOut s !! parseCookie (Some c) = Some ch →
  serveIndex now r w s =
  Some (Write_indexHtml (WriteHeader StatusOK (Header_Set_ContentType "text/html" w)), s).
Proof.
  intros Hm Hfree Hc Hlive. unfold serveIndex. rewrite Hm, Hc. simpl.
  rewrite getListener_unlocked by done. simpl in Hlive. simpl. by rewrite Hlive.
Qed.

(** C9 as stated fails when the clock reading is a registered
    identifier: in the sample run a GET to [/] without cookie, served at
    reading 101, gets the cookie 101 and the page, and the registry has
    two entries as before: 101 has moved to a new queue. *)
Lemma serveIndex_no_new_entry_counterexample :
  ∃ w' s',
    serveIndex 101 (get_request "/" []) new_response (srv demo) = Some (w', s') ∧
    status w' = StatusOK ∧ setCookie w' = Some (idx_cookie "101") ∧
    fanOut (srv demo) !! 101 = Some 0%nat ∧ fanOut s' !! 101 = Some 2%nat ∧
    size (fanOut (srv demo)) = 2%nat ∧ size (fanOut s') = 2%nat ∧
    dom (fanOut s') = dom (fanOut (srv demo)).
Proof.
  eexists _, _. split; [vm_compute; reflexivity|].
  repeat split; reflexivity.
Qed.

(** C9, amended: a GET to [/] with no [idx] cookie, or with one that
    resolves to no registry entry, registers the clock reading with a new
    empty queue, leaves every other entry as it was, and sets the [idx]
    cookie to the decimal string of that identifier.  This is exactly one
    new registry entry when the reading is not a registered identifier;
    when it is one, that entry is replaced and the registry keeps its
    size.  A GET to [/] whose cookie resolves to a registered entry leaves
    the server as it was and sets no cookie.  Both get the page with
    200. *)
Theorem serveIndex_session now r w s :
  code w = None → Method r = "GET" → mu s = false →
  ((Request_Cookie r "idx" = (None, Some ErrNoCookie) ∨
    ∃ c, Request_Cookie r "idx" = (Some c, None) ∧
         fanOut s !! parseCookie (Some c) = None) →
   ∃ w' s', serveIndex now r w s = Some (w', s') ∧
            status w' = StatusOK ∧ wroteIndex w' = true ∧
            setCookie w' = Some {| Name := "idx"; Value := FormatInt now |} ∧
            (- 2 ^ 63 ≤ now < 2 ^ 63 → decimal_int64 (FormatInt now) now) ∧
            fanOut s' = <[now := length (heap s)]> (fanOut s) ∧
            heap s' = (heap s ++ [make msgBuffer])%list ∧
            (∀ j, j ≠ now → fanOut s' !! j = fanOut s !! j) ∧
            (fanOut s !! now = None → size (fanOut s') = S (size (fanOut s))) ∧
            (is_Some (fanOut s !! now) → size (fanOut s') = size (fanOut s))) ∧
  (∀ c ch, Request_Cookie r "idx" = (Some c, None) →
           fanOut s !! parseCookie (Some c) = Some ch →
   ∃ w', serveIndex now r w s = Some (w', s) ∧
         status w' = StatusOK ∧ wroteIndex w' = true ∧ setCookie w' = setCookie w).
Proof.
  intros Hcode Hm Hfree. split.
  - intros Hcookie. eexists _, _. split; [by apply serveIndex_register|].
    simpl. split; [unfold status, WriteHeader; simpl; by rewrite Hcode|].
    split; [done|]. split; [unfold WriteHeader; simpl; by rewrite Hcode|].
    split; [apply FormatInt_decimal|].
    split; [done|]. split; [done|].
    split; [|split].
    + intros j Hne. by rewrite lookup_insert_ne.
    + intros Hnone. by apply map_size_insert_None.
    + intros [c Hc]. by eapply map_size_insert_Some.
  - intros c ch Hc Hlive. eexists. split; [by eapply serveIndex_reuse|].
    split; [unfold status, WriteHeader; simpl; by rewrite Hcode|].
    split; [done|]. unfold WriteHeader; simpl. by rewrite Hcode.
Qed.

Lemma serveIndex_session_witness :
  (∃ w' s', serveIndex 103 (get_request "/" []) new_response (srv demo) = Some (w', s') ∧
            setCookie w' = Some (idx_cookie "103") ∧
            size (fanOut s') = 3%nat ∧ fanOut s' !! 103 = Some 2%nat ∧
            heap s' !! 2%nat = Some (make msgBuffer)) ∧
  (∃ w' s', serveIndex 101 (get_request "/" []) new_response (srv demo) = Some (w', s') ∧
            size (fanOut s') = 2%nat ∧ fanOut s' !! 102 = Some 1%nat) ∧
  (∃ w', serveIndex 103 (get_request "/" [idx_cookie "102"]) new_response (srv demo)
           = Some (w', srv demo) ∧ setCookie w' = None).
Proof.
  split; [|split].
  - destruct (serveIndex_session 103 (get_request "/" []) new_response (srv demo)
                eq_refl eq_refl eq_refl) as [Hnew _].
    destruct (Hnew (or_introl eq_refl))
      as (w' & s' & Hs & _ & _ & Hck & _ & Hf & Hh & _ & Hsize & _).
    exists w', s'. split; [done|]. split; [done|]. split; [|split].
    + by rewrite (Hsize eq_refl).
    + rewrite Hf. reflexivity.
    + rewrite Hh. reflexivity.
  - destruct (serveIndex_session 101 (get_request "/" []) new_response (srv demo)
                eq_refl eq_refl eq_refl) as [Hnew _].
    destruct (Hnew (or_introl eq_refl))
      as (w' & s' & Hs & _ & _ & _ & _ & _ & _ & Hkeep & _ & Hsame).
    exists w', s'. split; [done|]. split.
    + rewrite Hsame; [reflexivity|]. by exists 0%nat.
    + by rewrite Hkeep.
  - destruct (serveIndex_session 103 (get_request "/" [idx_cookie "102"]) new_response
                (srv demo) eq_refl eq_refl eq_refl) as [_ Hreuse].
    destruct (Hreuse (idx_cookie "102") 1%nat eq_refl eq_refl) as (w' & Hs & _ & _ & Hck).
    exists w'. done.
Defined.

(** * Further properties of the server *)

(** ** The registry: insert, lookup, delete *)

(** X1: the identifier returned by [addListener] looks up, with
    [getListener], to the queue returned with it; every other identifier
    looks up as before. *)
Theorem registry_add_then_get now s idx ch s' :
  addListener now s = Some (idx, ch, s') →
  getListener idx s' = Some (Some ch) ∧
  ∀ j, j ≠ idx → getListener j s' = getListener j s.
Proof.
  intros (Hfree & -> & -> & ->)%addListener_Some. split.
  - rewrite getListener_unlocked by done. simpl. by rewrite lookup_insert_eq.
  - intros j Hne. rewrite !getListener_unlocked by done. simpl.
    by rewrite lookup_insert_ne.
Qed.

Lemma registry_add_then_get_witness :
  ∃ s', addListener 103 (srv demo) = Some (103, 2%nat, s') ∧
        getListener 103 s' = Some (Some 2%nat) ∧
        getListener 101 s' = Some (Some 0%nat).
Proof.
  destruct (addListener 103 (srv demo)) as [[[idx ch] s']|] eqn:Ha; [|discriminate].
  destruct (registry_add_then_get 103 (srv demo) idx ch s' Ha) as [Hget Hother].
  assert (idx = 103 ∧ ch = 2%nat) as [-> ->].
  { vm_compute in Ha. by injection Ha as <- <- _. }
  exists s'. split; [done|]. split; [done|].
  rewrite (Hother 101) by discriminate. reflexivity.
Defined.

(** X2: after [removeListener] the identifier looks up to nil and every
    other identifier looks up as before; removing it once more, or
    removing an identifier that is not registered, changes nothing. *)
Theorem registry_remove idx s s' :
  removeListener idx s = Some s' →
  getListener idx s' = Some None ∧
  (∀ j, j ≠ idx → getListener j s' = getListener j s) ∧
  removeListener idx s' = Some s' ∧
  (fanOut s !! idx = None → s' = s).
Proof.
  intros (Hfree & ->)%removeListener_Some. split; [|split; [|split]].
  - rewrite getListener_unlocked by done. simpl. by rewrite lookup_delete_eq.
  - intros j Hne. rewrite !getListener_unlocked by done. simpl.
    by rewrite lookup_delete_ne.
  - apply removeListener_Some. split; [done|]. simpl.
    by rewrite delete_delete_eq.
  - intros Hnone. destruct s as [b q f m h ws]. simpl in *.
    f_equal; [by apply delete_id|done].
Qed.

Lemma registry_remove_witness :
  ∃ s', removeListener 101 (srv demo) = Some s' ∧
        getListener 101 s' = Some None ∧
        getListener 102 s' = Some (Some 1%nat) ∧
        removeListener 101 s' = Some s'.
Proof.
  destruct (removeListener 101 (srv demo)) as [s'|] eqn:Hrm; [|discriminate].
  destruct (registry_remove 101 (srv demo) s' Hrm) as (Hget & Hother & Hagain & _).
  exists s'. split; [done|]. split; [done|]. split; [|done].
  rewrite (Hother 102) by discriminate. reflexivity.
Defined.

(** ** The [idx] cookie *)

(** X3: [parseCookie] gives a non-zero identifier exactly for the values
    that are the decimal notation of that 64-bit integer; every other
    value, and the notations of zero, give 0.  The result is always a
    64-bit integer. *)
Theorem parseCookie_decimal c z :
  z ≠ 0 →
  (parseCookie (Some c) = z ↔ decimal_int64 (Value c) z) ∧
  - 2 ^ 63 ≤ parseCookie (Some c) < 2 ^ 63.
Proof.
  intros Hnz. simpl. split.
  - rewrite <- ParseInt_spec. destruct (ParseInt (Value c)) as [i|]; split; congruence.
  - destruct (ParseInt (Value c)) as [i|] eqn:Hp; [|lia].
    apply ParseInt_spec in Hp as (sign & ds & _ & _ & _ & _ & _ & ?). lia.
Qed.

Lemma parseCookie_decimal_witness :
  parseCookie (Some (idx_cookie "+007")) = 7 ∧ decimal_int64 "-12" (-12).
Proof.
  split.
  - reflexivity.
  - destruct (parseCookie_decimal (idx_cookie "-12") (-12)) as [[Hto _] _]; [discriminate|].
    apply Hto. reflexivity.
Defined.

(** X4: the cookie that [serveIndex] writes for an identifier, the output
    of [fmt.Sprint], is read back by [parseCookie] as that identifier. *)
Theorem cookie_round_trip z :
  - 2 ^ 63 ≤ z < 2 ^ 63 →
  parseCookie (Some {| Name := "idx"; Value := FormatInt z |}) = z.
Proof. intros Hz%FormatInt_decimal%ParseInt_spec. simpl. by rewrite Hz. Qed.

Lemma cookie_round_trip_witness :
  parseCookie (Some {| Name := "idx"; Value := FormatInt (- 2 ^ 63) |}) = - 2 ^ 63.
Proof. apply cookie_round_trip. lia. Defined.

(** X5: the entry page followed by the stream.  A GET to [/] without a
    cookie at a non-zero clock reading registers a session, and a GET to
    [/logs] carrying the cookie of that reply is upgraded (101) onto the
    queue just registered, leaving the registry as it is.  At clock
    reading 0 the same cookie is refused with 401. *)
Theorem index_then_logs now r w s :
  code w = None → Method r = "GET" → mu s = false →
  Request_Cookie r "idx" = (None, Some ErrNoCookie) →
  - 2 ^ 63 ≤ now < 2 ^ 63 →
  ∃ w1 s1 c,
    serveIndex now r w s = Some (w1, s1) ∧ setCookie w1 = Some c ∧
    ∀ r2 w2,
      code w2 = None → Method r2 = "GET" → Request_Cookie r2 "idx" = (Some c, None) →
      (now ≠ 0 →
       ∃ w3, logOutput Upgraded r2 w2 s1 =
               Some (w3, s1, Some (Session now (length (heap s))
                                     {| conn_open := true; frames := [] |} Streaming)) ∧
             status w3 = StatusSwitchingProtocols) ∧
      (now = 0 →
       ∃ w3, logOutput Upgraded r2 w2 s1 = Some (w3, s1, None) ∧
             status w3 = StatusUnauthorized).
Proof.
  intros Hcode Hm Hfree Hnc Hrange.
  eexists _, _, _. split; [apply serveIndex_register; auto|].
  split; [unfold WriteHeader; simpl; by rewrite Hcode|].
  intros r2 w2 Hcode2 Hm2 Hc2.
  pose proof (parseCookie_FormatInt now Hrange) as Hpc. split.
  - intros Hnz. eexists. split; [|by apply status_WriteHeader].
    rewrite (logOutput_lookup Upgraded r2 w2 _ _ Hm2 Hc2); rewrite ?Hpc; try done.
    simpl. by rewrite lookup_insert_eq.
  - intros ->. eexists. split; [|by apply status_WriteHeader].
    by eapply logOutput_zero.
Qed.

Lemma index_then_logs_witness :
  ∃ w1 s1 w3,
    serveIndex 103 (get_request "/" []) new_response (srv demo) = Some (w1, s1) ∧
    setCookie w1 = Some (idx_cookie "103") ∧
    logOutput Upgraded (get_request "/logs" [idx_cookie "103"]) new_response s1 =
      Some (w3, s1, Some (Session 103 2 {| conn_open := true; frames := [] |} Streaming)).
Proof.
  destruct (index_then_logs 103 (get_request "/" []) new_response (srv demo))
    as (w1 & s1 & c & Hs & Hck & Hlogs); try reflexivity; [lia|].
  assert (c = idx_cookie "103") as ->.
  { vm_compute in Hs. injection Hs as <- _. vm_compute in Hck. by injection Hck as <-. }
  destruct (Hlogs (get_request "/logs" [idx_cookie "103"]) new_response
              eq_refl eq_refl eq_refl) as [Hopen _].
  destruct (Hopen ltac:(discriminate)) as (w3 & Hl & _).
  exists w1, s1, w3. done.
Defined.

(** ** The delivery loop *)

Lemma logOutput_step_deliver ss s c m q :
  s_pc ss = Streaming → heap s !! s_ch ss = Some c → buf c = m :: q →
  logOutput_step true ss s =
  Some (Session (s_idx ss) (s_ch ss)
          {| conn_open := conn_open (s_conn ss); frames := frames (s_conn ss) ++ [m] |}
          Streaming,
        set_heap (<[s_ch ss := Chan q (cap c) (closed c)]> (heap s)) s).
Proof.
  intros Hpc Hc Hb. unfold logOutput_step. rewrite Hpc, Hc. simpl.
  unfold recv. rewrite Hb. done.
Qed.

Lemma logOutput_step_waits b ss s c :
  s_pc ss = Streaming → heap s !! s_ch ss = Some c → buf c = [] → closed c = false →
  logOutput_step b ss s = None.
Proof.
  intros Hpc Hc Hb Hcl. unfold logOutput_step. rewrite Hpc, Hc. simpl.
  unfold recv, drained. by rewrite Hb, Hcl.
Qed.

Lemma stream_drains ms : ∀ ss s c,
  s_pc ss = Streaming → heap s !! s_ch ss = Some c → buf c = ms →
  ∃ ss' s',
    logOutput_steps (replicate (length ms) true) ss s = Some (ss', s') ∧
    s_idx ss' = s_idx ss ∧ s_ch ss' = s_ch ss ∧ s_pc ss' = Streaming ∧
    conn_open (s_conn ss') = conn_open (s_conn ss) ∧
    frames (s_conn ss') = (frames (s_conn ss) ++ ms)%list ∧
    heap s' = <[s_ch ss := Chan [] (cap c) (closed c)]> (heap s) ∧
    fanOut s' = fanOut s ∧ messages s' = messages s ∧ mu s' = mu s ∧
    workers s' = workers s.
Proof.
  induction ms as [|m ms IH]; intros ss s c Hpc Hc Hb.
  - exists ss, s. simpl. rewrite app_nil_r. repeat split; try done.
    rewrite list_insert_id; [done|]. rewrite Hc. f_equal. destruct c; simpl in *; by subst.
  - simpl. rewrite (logOutput_step_deliver ss s c m ms Hpc Hc Hb). simpl.
    edestruct (IH (Session (s_idx ss) (s_ch ss)
                     {| conn_open := conn_open (s_conn ss);
                        frames := frames (s_conn ss) ++ [m] |} Streaming)
                  (set_heap (<[s_ch ss := Chan ms (cap c) (closed c)]> (heap s)) s)
                  (Chan ms (cap c) (closed c)))
      as (ss' & s' & Hsteps & Hidx & Hch & Hpc' & Hopen & Hfr & Hheap & Hrest); try done.
    { simpl. apply list_lookup_insert_eq. by eapply lookup_lt_Some. }
    exists ss', s'. split; [done|]. simpl in *.
    repeat split; try done; try tauto.
    + by rewrite Hfr, <- app_assoc.
    + by rewrite Hheap, list_insert_insert_eq.
Qed.

(** X6: the delivery loop of [logOutput] pushes the messages found in
    the subscriber's queue as frames, oldest first, one per turn, as long
    as the pushes succeed; it touches nothing else of the server, and
    with the queue empty it waits. *)
Theorem stream_delivers_in_order ss s c :
  wf s → s_pc ss = Streaming → heap s !! s_ch ss = Some c →
  ∃ ss' s',
    logOutput_steps (replicate (length (buf c)) true) ss s = Some (ss', s') ∧
    s_pc ss' = Streaming ∧
    frames (s_conn ss') = (frames (s_conn ss) ++ buf c)%list ∧
    queue s' (s_ch ss) = [] ∧
    fanOut s' = fanOut s ∧ messages s' = messages s ∧
    (∀ ch, ch ≠ s_ch ss → queue s' ch = queue s ch) ∧
    ∀ b, logOutput_step b ss' s' = None.
Proof.
  intros Hwf Hpc Hc.
  destruct (stream_drains (buf c) ss s c Hpc Hc eq_refl)
    as (ss' & s' & Hsteps & Hidx & Hch & Hpc' & Hopen & Hfr & Hheap & Hf & Hm & _).
  assert (s_ch ss < length (heap s))%nat as Hlt by (by eapply lookup_lt_Some).
  exists ss', s'. split; [done|]. split; [done|]. split; [done|]. split.
  { unfold queue. rewrite Hheap, list_lookup_insert_eq by done. done. }
  split; [done|]. split; [done|]. split.
  { intros ch Hne. unfold queue. by rewrite Hheap, list_lookup_insert_ne. }
  intros b. eapply logOutput_step_waits; [done| | |].
  - rewrite Hch, Hheap. by apply list_lookup_insert_eq.
  - done.
  - simpl. destruct Hwf as (_ & _ & _ & _ & Hheapok). by destruct (Hheapok _ _ Hc).
Qed.

Lemma stream_delivers_in_order_witness :
  let s := Server "" (make msgBuffer) {[101 := 0%nat]} false
             [Chan ["a"; "b"; "c"] msgBuffer false] [AtRecv] in
  let ss := Session 101 0 {| conn_open := true; frames := [] |} Streaming in
  ∃ ss' s', logOutput_steps [true; true; true] ss s = Some (ss', s') ∧
            frames (s_conn ss') = ["a"; "b"; "c"] ∧ queue s' 0 = [].
Proof.
  intros s ss.
  assert (wf s) as Hwf.
  { apply wf_intro.
    - split; simpl.
      + intros idx ch [<- <-]%lookup_singleton_Some. simpl. lia.
      + intros i j ch [<- _]%lookup_singleton_Some [<- _]%lookup_singleton_Some. done.
    - intros [|[|i]] w; simpl; [intros [= <-]; done|done|done].
    - split.
      + intros [|[|i]] w; simpl; [intros [= <-]; done|done|done].
      + intros [|[|i]] j wi wj; simpl; [intros [= <-]; done|done|done].
    - done.
    - intros [|[|ch]] c; simpl; [intros [= <-]; done|done|done]. }
  destruct (stream_delivers_in_order ss s (Chan ["a"; "b"; "c"] msgBuffer false)
              Hwf eq_refl eq_refl) as (ss' & s' & Hsteps & _ & Hfr & Hq & _).
  exists ss', s'. done.
Defined.

Lemma logOutput_step_fail ss s c m q :
  s_pc ss = Streaming → heap s !! s_ch ss = Some c → buf c = m :: q →
  logOutput_step false ss s =
  Some (Session (s_idx ss) (s_ch ss) (Conn_Close (s_conn ss)) Removing,
        set_heap (<[s_ch ss := Chan q (cap c) (closed c)]> (heap s)) s).
Proof.
  intros Hpc Hc Hb. unfold logOutput_step. rewrite Hpc, Hc. simpl.
  unfold recv. rewrite Hb. done.
Qed.

Lemma logOutput_step_remove b ss s :
  s_pc ss = Removing → mu s = false →
  logOutput_step b ss s =
  Some (Session (s_idx ss) (s_ch ss) (s_conn ss) Returned,
        Server (bearer s) (messages s) (delete (s_idx ss) (fanOut s)) false (heap s)
          (workers s)).
Proof.
  intros Hpc Hfree. unfold logOutput_step. rewrite Hpc.
  unfold removeListener, Lock. rewrite Hfree. done.
Qed.

(** X7: a message whose push fails is lost: it has left the queue and is
    in no frame.  The handler then closes the connection and, once the
    mutex is free, removes its identifier and returns for good; what was
    still queued behind that message stays in the queue, out of reach of
    the registry. *)
Theorem failed_push_drops_message b ss s c m q :
  s_pc ss = Streaming → heap s !! s_ch ss = Some c → buf c = m :: q → mu s = false →
  ∃ ss' s',
    logOutput_steps [false; b] ss s = Some (ss', s') ∧
    s_pc ss' = Returned ∧
    frames (s_conn ss') = frames (s_conn ss) ∧ conn_open (s_conn ss') = false ∧
    queue s' (s_ch ss) = q ∧
    fanOut s' = delete (s_idx ss) (fanOut s) ∧
    ∀ b', logOutput_step b' ss' s' = None.
Proof.
  intros Hpc Hc Hb Hfree.
  assert (s_ch ss < length (heap s))%nat as Hlt by (by eapply lookup_lt_Some).
  eexists _, _. split.
  - cbn [logOutput_steps]. rewrite (logOutput_step_fail ss s c m q Hpc Hc Hb).
    cbn [mbind option_bind]. rewrite logOutput_step_remove by done. reflexivity.
  - simpl. repeat split; try done.
    unfold queue. simpl. by rewrite list_lookup_insert_eq.
Qed.

Lemma failed_push_drops_message_witness :
  let s := Server "" (make msgBuffer) {[101 := 0%nat]} false
             [Chan ["a"; "b"] msgBuffer false] [AtRecv] in
  let ss := Session 101 0 {| conn_open := true; frames := [] |} Streaming in
  ∃ ss' s', logOutput_steps [false; true] ss s = Some (ss', s') ∧
            frames (s_conn ss') = [] ∧ queue s' 0 = ["b"] ∧ fanOut s' !! 101 = None.
Proof.
  intros s ss.
  destruct (failed_push_drops_message true ss s (Chan ["a"; "b"] msgBuffer false) "a" ["b"]
              eq_refl eq_refl eq_refl eq_refl)
    as (ss' & s' & Hsteps & _ & Hfr & _ & Hq & Hf & _).
  exists ss', s'. split; [done|]. split; [done|]. split; [done|].
  rewrite Hf. reflexivity.
Defined.

(** X8: [logOutput] does not take the entry it finds out of the registry,
    so every request with the same cookie is upgraded onto the same
    queue; a refused upgrade leaves the entry registered as well, and the
    status the client gets is the upgrader's, the handler's 500 coming
    too late.  Connections that share a queue share its messages: the one
    that receives a message leaves nothing of it for the other. *)
Theorem logs_same_cookie_shares_queue r w s c ch :
  wf s → code w = None → Method r = "GET" → mu s = false →
  Request_Cookie r "idx" = (Some c, None) →
  parseCookie (Some c) ≠ 0 → fanOut s !! parseCookie (Some c) = Some ch →
  let ss := Session (parseCookie (Some c)) ch {| conn_open := true; frames := [] |}
              Streaming in
  (∃ w', logOutput Upgraded r w s = Some (w', s, Some ss) ∧
         status w' = StatusSwitchingProtocols) ∧
  (∀ c0, ∃ w', logOutput (Refused c0) r w s = Some (w', s, None) ∧ status w' = c0) ∧
  (∀ m, queue s ch = [m] →
     ∃ ss1 s1, logOutput_step true ss s = Some (ss1, s1) ∧
               frames (s_conn ss1) = [m] ∧
               ∀ b, logOutput_step b ss s1 = None).
Proof.
  intros Hwf Hcode Hm Hfree Hc Hnz Hlive ss. split; [|split].
  - eexists. split; [|by apply status_WriteHeader].
    rewrite (logOutput_lookup Upgraded r w s c); try done. by rewrite Hlive.
  - intros c0. eexists. split.
    + rewrite (logOutput_lookup (Refused c0) r w s c); try done. by rewrite Hlive.
    + unfold status, WriteHeader. rewrite Hcode. done.
  - intros m Hq.
    destruct Hwf as ([Hbound _] & _ & _ & _ & Hheapok).
    pose proof (Hbound _ _ Hlive) as Hlt.
    destruct (heap s !! ch) as [c0|] eqn:Hc0; [|by apply lookup_ge_None in Hc0; lia].
    unfold queue in Hq. rewrite Hc0 in Hq.
    destruct (Hheapok _ _ Hc0) as [Hcl _].
    eexists _, _. split; [by apply (logOutput_step_deliver ss s c0 m [])|].
    split; [done|]. intros b.
    eapply (logOutput_step_waits b ss _ (Chan [] (cap c0) (closed c0))); try done.
    simpl. by apply list_lookup_insert_eq.
Qed.

Lemma logs_same_cookie_shares_queue_witness :
  let s := srv demo in
  let r := get_request "/logs" [idx_cookie "102"] in
  let ss := Session 102 1 {| conn_open := true; frames := [] |} Streaming in
  (∃ w', logOutput Upgraded r new_response s = Some (w', s, Some ss)) ∧
  (∃ w', logOutput (Refused 403) r new_response s = Some (w', s, None) ∧
         status w' = 403%nat).
Proof.
  intros s r ss.
  destruct (logs_same_cookie_shares_queue r new_response s (idx_cookie "102") 1%nat)
    as ((w1 & H1 & _) & H2 & _); try reflexivity.
  - apply reachable_wf, demo_reachable.
  - discriminate.
  - split; [by exists w1|apply H2].
Defined.

(** ** Dispatch and the order of the checks *)

(** X9: a request for any path other than [/], [/logs] and [/webhook]
    is answered by no handler: the reply is left untouched (an empty 200,
    not a 404), nothing of the registry or the queues changes, and the
    request still starts a broadcast worker.  It never waits for the
    mutex. *)
Theorem ServeHTTP_other_path now upgrade_ok r w s :
  Path r ≠ "/" → Path r ≠ "/logs" → Path r ≠ "/webhook" →
  ServeHTTP now upgrade_ok r w s = Some (w, go_run s, None) ∧
  (code w = None → status w = StatusOK) ∧
  workers (go_run s) = (workers s ++ [AtRecv])%list ∧
  fanOut (go_run s) = fanOut s ∧ heap (go_run s) = heap s ∧
  messages (go_run s) = messages s.
Proof.
  intros H1%String.eqb_neq H2%String.eqb_neq H3%String.eqb_neq.
  unfold ServeHTTP. rewrite H1, H2, H3. repeat split; try done.
  intros Hcode. unfold status. by rewrite Hcode.
Qed.

Lemma ServeHTTP_other_path_witness :
  ServeHTTP 0 Upgraded (get_request "/favicon.ico" []) new_response (new_server "")
  = Some (new_response, go_run (new_server ""), None) ∧
  status new_response = StatusOK.
Proof.
  destruct (ServeHTTP_other_path 0 Upgraded (get_request "/favicon.ico" []) new_response
              (new_server "")) as (Hs & Hst & _); try discriminate.
  split; [done|]. by apply Hst.
Defined.

(** X10: [serveIndex] and [logOutput] test the method before anything
    else.  A request that is not a GET gets 405 whatever its cookies and
    whatever the registry holds, also while a fan-out holds the mutex; no
    cookie is set, no page is written, no session is started and the
    server is left as it was. *)
Theorem get_only now upgrade_ok r w s :
  code w = None → Method r ≠ "GET" →
  (∃ w', serveIndex now r w s = Some (w', s) ∧
         status w' = StatusMethodNotAllowed ∧
         setCookie w' = setCookie w ∧ wroteIndex w' = wroteIndex w) ∧
  (∃ w', logOutput upgrade_ok r w s = Some (w', s, None) ∧
         status w' = StatusMethodNotAllowed).
Proof.
  intros Hcode Hm%String.eqb_neq. split.
  - exists (WriteHeader StatusMethodNotAllowed w).
    unfold serveIndex. rewrite Hm. simpl. split; [done|].
    split; [by apply status_WriteHeader|]. unfold WriteHeader. by rewrite Hcode.
  - exists (WriteHeader StatusMethodNotAllowed w).
    unfold logOutput. rewrite Hm. simpl. split; [done|]. by apply status_WriteHeader.
Qed.

Lemma get_only_witness :
  let r := {| Method := "POST"; Path := "/"; Cookies := [idx_cookie "101"];
              Authorization := None; Body := Some "" |} in
  (∃ w', serveIndex 7 r new_response (set_mu true (srv demo))
           = Some (w', set_mu true (srv demo)) ∧ status w' = StatusMethodNotAllowed) ∧
  (∃ w', logOutput Upgraded r new_response (srv demo) = Some (w', srv demo, None) ∧
         status w' = StatusMethodNotAllowed).
Proof.
  intros r. split.
  - destruct (get_only 7 Upgraded r new_response (set_mu true (srv demo)) eq_refl)
      as [(w' & Hs & Hst & _) _]; [discriminate|]. by exists w'.
  - destruct (get_only 7 Upgraded r new_response (srv demo) eq_refl) as [_ H];
      [discriminate|done].
Defined.

(** X11: [webhookReceiver] checks the token before it reads the body, and
    reads the body before it sends.  With a token configured and a wrong
    header the reply is 401 even when the body cannot be read; with the
    check passed and the body unreadable the reply is 500, nothing is
    enqueued, and the handler does not wait even when the inbound queue
    is full. *)
Theorem webhook_check_order r w s :
  code w = None → Method r = "POST" →
  (bearer s ≠ "" → ¬ authorized_header (Header_Get_Authorization r) (bearer s) →
     ∃ w', webhookReceiver r w s = Some (w', s) ∧ status w' = StatusUnauthorized) ∧
  (bearer s = "" ∨ authorized_header (Header_Get_Authorization r) (bearer s) →
   Body r = None →
     ∃ w', webhookReceiver r w s = Some (w', s) ∧
           status w' = StatusInternalServerError).
Proof.
  intros Hcode Hm. split.
  - intros Htok%String.eqb_neq Hbad%bearer_mismatch_true.
    exists (WriteHeader StatusUnauthorized w). split; [|by apply status_WriteHeader].
    unfold webhookReceiver. by rewrite Hm, Htok, Hbad.
  - intros Hauth Hbody.
    exists (WriteHeader StatusInternalServerError w). split; [|by apply status_WriteHeader].
    unfold webhookReceiver. rewrite Hm, Hbody. simpl.
    destruct Hauth as [->|Hok%bearer_mismatch_false]; [done|].
    rewrite Hok, andb_false_r. done.
Qed.

Lemma webhook_check_order_witness :
  let s := Server "secret" (make msgBuffer) ∅ false [] [] in
  let broken a := {| Method := "POST"; Path := "/webhook"; Cookies := [];
                     Authorization := a; Body := None |} in
  (∃ w', webhookReceiver (broken (Some "Bearer nope")) new_response s = Some (w', s) ∧
         status w' = StatusUnauthorized) ∧
  (∃ w', webhookReceiver (broken (Some "Bearer secret")) new_response s = Some (w', s) ∧
         status w' = StatusInternalServerError).
Proof.
  intros s broken. split.
  - destruct (webhook_check_order (broken (Some "Bearer nope")) new_response s
                eq_refl eq_refl) as [H401 _].
    apply H401; [discriminate|]. apply bearer_mismatch_true. reflexivity.
  - destruct (webhook_check_order (broken (Some "Bearer secret")) new_response s
                eq_refl eq_refl) as [_ H500].
    apply H500; [|reflexivity]. right. apply bearer_mismatch_false. reflexivity.
Defined.

(** X12: with no token configured [webhookReceiver] is the handler of the
    version without the bearer check: the same reply and the same server
    for every request, whatever its Authorization header.  With a token
    configured the two differ only where the new one answers 401. *)
Theorem webhook_without_token_as_before r w s :
  (bearer s = "" → webhookReceiver r w s = webhookReceiver_v1 r w s) ∧
  (webhookReceiver r w s ≠ webhookReceiver_v1 r w s →
   webhookReceiver r w s = Some (WriteHeader StatusUnauthorized w, s)).
Proof.
  unfold webhookReceiver, webhookReceiver_v1. split.
  - intros ->. simpl. by destruct (negb (Method r =? "POST")%string).
  - destruct (negb (Method r =? "POST")%string); [done|].
    destruct (negb (bearer s =? "")%string && _); done.
Qed.

Lemma webhook_without_token_as_before_witness :
  webhookReceiver (post_webhook (Some "Basic x") "hello") new_response (new_server "")
  = webhookReceiver_v1 (post_webhook (Some "Basic x") "hello") new_response (new_server "").
Proof.
  destruct (webhook_without_token_as_before (post_webhook (Some "Basic x") "hello")
              new_response (new_server "")) as [Hsame _].
  by apply Hsame.
Defined.

(** ** Invariants of the running server *)

Lemma bounded_set_heap s ch c :
  bounded s → (length (buf c) ≤ cap c)%nat →
  bounded (set_heap (<[ch := c]> (heap s)) s).
Proof.
  intros [Hm Hh] Hc. split; [done|]. simpl.
  intros ch' c' [(_ & <- & _)|[_ Hc']]%list_lookup_insert_Some; [done|by eapply Hh].
Qed.

Lemma bounded_run i pick s s' : bounded s → run i pick s = Some s' → bounded s'.
Proof.
  intros [Hm Hh] Hrun%run_iff.
  destruct Hrun as [m q Hw Hb|m Hw Hfree|m pending idx ch c Hw Hp Hc Hcl Hlt|m Hw].
  - split; [|done]. simpl. rewrite Hb in Hm. simpl in Hm. lia.
  - done.
  - split; [done|]. simpl.
    intros ch' c' [(_ & <- & _)|[_ Hc']]%list_lookup_insert_Some; [|by eapply Hh].
    simpl. rewrite length_app. simpl. lia.
  - done.
Qed.

Lemma bounded_ServeHTTP now upgrade_ok r w s w' s' ss :
  bounded s → ServeHTTP now upgrade_ok r w s = Some (w', s', ss) → bounded s'.
Proof.
  intros [Hm Hh] [->|[[ch Ha]|(body & q & _ & Hs & ->)]]%ServeHTTP_server.
  - done.
  - apply addListener_Some in Ha as (_ & _ & _ & ->). split; [done|]. simpl.
    intros ch' c' [Hc'|[_ Hc']]%lookup_app_Some; [by eapply Hh|].
    apply list_lookup_singleton_Some in Hc' as [_ <-]. simpl. lia.
  - apply send_Some in Hs as (_ & Hlt & ->). split; [|done]. simpl in *.
    rewrite length_app. simpl. lia.
Qed.

Lemma bounded_logOutput_step push_ok ss s ss' s' :
  bounded s → logOutput_step push_ok ss s = Some (ss', s') → bounded s'.
Proof.
  intros Hb [->|[(c & m & c' & Hc & Hr & ->)|Hrm]]%logOutput_step_server.
  - done.
  - apply bounded_set_heap; [done|].
    apply recv_Some in Hr as (q & Hq & ->). simpl.
    destruct Hb as [_ Hh]. specialize (Hh _ _ Hc). rewrite Hq in Hh. simpl in Hh. lia.
  - by apply removeListener_Some in Hrm as [_ ->].
Qed.

Lemma bounded_exec es : ∀ x x', bounded (srv x) → exec es x = Some x' → bounded (srv x').
Proof.
  induction es as [|e es IH]; intros x x' Hb; simpl; [by intros [= <-]|].
  destruct (step e x) as [x1|] eqn:Hs; simpl; [|done]. apply IH.
  destruct e as [now upgrade_ok r|i pick|k push_ok]; simpl in Hs.
  - destruct (ServeHTTP _ _ _ _ _) as [[[w s] ss]|] eqn:Hsv; simpl in Hs; [|done].
    injection Hs as <-. simpl. by eapply bounded_ServeHTTP.
  - destruct (run i pick (srv x)) as [s|] eqn:Hr; simpl in Hs; [|done].
    injection Hs as <-. simpl. by eapply bounded_run.
  - destruct (sessions x !! k) as [ss|]; simpl in Hs; [|done].
    destruct (logOutput_step _ _ _) as [[ss' s]|] eqn:Hl; simpl in Hs; [|done].
    injection Hs as <-. simpl. by eapply bounded_logOutput_step.
Qed.

(** X13: bounded buffering.  In every state the server can reach, the
    inbound queue and every subscriber queue are open channels of
    capacity 1000 holding at most 1000 messages, and every registered
    identifier has a queue of its own among them. *)
Theorem reachable_queues_bounded x :
  reachable x →
  (cap (messages (srv x)) = msgBuffer ∧ closed (messages (srv x)) = false ∧
   (length (buf (messages (srv x))) ≤ msgBuffer)%nat) ∧
  (∀ ch c, heap (srv x) !! ch = Some c →
     cap c = msgBuffer ∧ closed c = false ∧ (length (buf c) ≤ msgBuffer)%nat) ∧
  (∀ idx ch, fanOut (srv x) !! idx = Some ch → is_Some (heap (srv x) !! ch)) ∧
  (∀ i j ch, fanOut (srv x) !! i = Some ch → fanOut (srv x) !! j = Some ch → i = j).
Proof.
  intros Hreach.
  pose proof (reachable_wf _ Hreach) as ([Hbound Hinj] & _ & _ & [Hmcl Hmcap] & Hheap).
  destruct Hreach as (token & es & Hex).
  assert (bounded (srv x)) as [Hbm Hbh].
  { eapply bounded_exec; [|done]. split; simpl; [lia|done]. }
  split; [|split; [|split]].
  - rewrite Hmcap in Hbm. done.
  - intros ch c Hc. destruct (Hheap _ _ Hc) as [Hcl Hcap].
    specialize (Hbh _ _ Hc). rewrite Hcap in Hbh. done.
  - intros idx ch Hf. apply lookup_lt_is_Some. by eapply Hbound.
  - done.
Qed.

Lemma reachable_queues_bounded_witness :
  length (buf (messages (srv demo))) = 2%nat ∧
  (length (buf (messages (srv demo))) ≤ msgBuffer)%nat.
Proof.
  destruct (reachable_queues_bounded demo demo_reachable) as ((_ & _ & Hle) & _).
  split; [reflexivity|done].
Defined.

Lemma held_run i pick s s' :
  (mu s = true → fanning_out s) → lock_ok s → run i pick s = Some s' →
  mu s' = true → fanning_out s'.
Proof.
  intros Hheld [_ Huniq] Hrun%run_iff.
  destruct Hrun as [m q Hw Hb|m Hw Hfree|m pending idx ch c Hw Hp Hc Hcl Hlt|m Hw];
    simpl; intros Hmu; try done.
  - destruct (Hheld Hmu) as (j & m' & p' & Hj). exists j, m', p'. simpl.
    rewrite list_lookup_insert_ne; [done|]. intros <-. congruence.
  - exists i, m, (map_to_list (fanOut s)). simpl.
    apply list_lookup_insert_eq. by eapply lookup_lt_Some.
  - exists i, m, (delete pick pending). simpl.
    apply list_lookup_insert_eq. by eapply lookup_lt_Some.
Qed.

Lemma held_exec es : ∀ x x',
  wf (srv x) → (mu (srv x) = true → fanning_out (srv x)) → exec es x = Some x' →
  mu (srv x') = true → fanning_out (srv x').
Proof.
  induction es as [|e es IH]; intros x x' Hwf Hheld; simpl; [by intros [= <-]|].
  destruct (step e x) as [x1|] eqn:Hs; simpl; [|done].
  apply IH; [by eapply wf_step|].
  destruct e as [now upgrade_ok r|i pick|k push_ok]; simpl in Hs.
  - destruct (ServeHTTP _ _ _ _ _) as [[[w s] ss]|] eqn:Hsv; simpl in Hs; [|done].
    injection Hs as <-. simpl.
    apply ServeHTTP_server in Hsv as [->|[[ch Ha]|(body & q & _ & _ & ->)]].
    + simpl. intros (j & m & p & Hj)%Hheld. exists j, m, p. simpl. by apply lookup_app_l_Some.
    + by apply addListener_Some in Ha as (_ & _ & _ & ->).
    + simpl. intros (j & m & p & Hj)%Hheld. exists j, m, p. simpl. by apply lookup_app_l_Some.
  - destruct (run i pick (srv x)) as [s|] eqn:Hr; simpl in Hs; [|done].
    injection Hs as <-. simpl. eapply held_run; [done| |done]. apply Hwf.
  - destruct (sessions x !! k) as [ss|]; simpl in Hs; [|done].
    destruct (logOutput_step _ _ _) as [[ss' s]|] eqn:Hl; simpl in Hs; [|done].
    injection Hs as <-. simpl.
    apply logOutput_step_server in Hl as [->|[(c & m & c' & _ & _ & ->)|Hrm]]; [done|done|].
    by apply removeListener_Some in Hrm as [_ ->].
Qed.

(** X14: no handler leaves the mutex locked.  In every state the server
    can reach, the mutex is held exactly when some broadcast worker is
    inside its fan-out; so [addListener], [getListener] and
    [removeListener] wait for nothing but a fan-out. *)
Theorem mutex_held_by_fanout_only x :
  reachable x →
  (mu (srv x) = true ↔ fanning_out (srv x)) ∧
  (¬ fanning_out (srv x) →
   ∀ now idx, is_Some (addListener now (srv x)) ∧ is_Some (getListener idx (srv x)) ∧
              is_Some (removeListener idx (srv x))).
Proof.
  intros Hreach.
  pose proof (reachable_wf _ Hreach) as Hwf.
  assert (mu (srv x) = true ↔ fanning_out (srv x)) as Hiff.
  { split.
    - destruct Hreach as (token & es & Hex).
      eapply (held_exec es (new_world token)); [apply wf_new_server|done|done].
    - intros (i & m & p & Hw). destruct Hwf as (_ & _ & [Hmu _] & _). by eapply Hmu. }
  split; [done|]. intros Hno now idx.
  assert (mu (srv x) = false) as Hfree.
  { destruct (mu (srv x)); [|done]. destruct Hno. by apply Hiff. }
  unfold addListener, getListener, removeListener, Lock. rewrite Hfree. simpl.
  repeat split; eauto.
Qed.

Lemma mutex_held_by_fanout_only_witness :
  mu (srv demo) = false ∧ is_Some (addListener 7 (srv demo)).
Proof.
  destruct (mutex_held_by_fanout_only demo demo_reachable) as [Hiff Hfree].
  split; [reflexivity|].
  apply (Hfree ltac:(intros Hf%Hiff; discriminate) 7 0).
Defined.

(** ** A full subscriber queue *)

Lemma room_zero_full s ch c m :
  room s ch = 0%nat → heap s !! ch = Some c → send m c = None.
Proof.
  unfold room. intros Hroom Hc. rewrite Hc in Hroom.
  unfold send. destruct (closed c); [done|].
  destruct (Nat.ltb_spec (length (buf c)) (cap c)); [lia|done].
Qed.

(** X15: a subscriber queue that is full stops the fan-out, and the
    worker stays where it is with the mutex held.  While every queue it
    still has to visit is full, that worker cannot step, no other worker
    can start a fan-out, a GET to [/] and a GET to [/logs] with a
    non-zero cookie wait, and a subscriber that has left its delivery
    loop cannot remove its entry. *)
Theorem full_queue_stalls i m pending s :
  wf s → workers s !! i = Some (InRange m pending) → pending ≠ [] →
  (∀ idx ch, (idx, ch) ∈ pending → room s ch = 0%nat) →
  (∀ pick, run i pick s = None) ∧
  (∀ j pick m', workers s !! j = Some (AtLock m') → run j pick s = None) ∧
  (∀ now r w, Method r = "GET" → serveIndex now r w s = None) ∧
  (∀ upgrade_ok r w c,
     Method r = "GET" → Request_Cookie r "idx" = (Some c, None) →
     parseCookie (Some c) ≠ 0 → logOutput upgrade_ok r w s = None) ∧
  (∀ b ss, s_pc ss = Removing → logOutput_step b ss s = None).
Proof.
  intros Hwf Hw Hne Hfull.
  assert (mu s = true) as Hmu.
  { destruct Hwf as (_ & _ & [Hheld _] & _). by eapply Hheld. }
  split; [|split; [|split; [|split]]].
  - intros pick. unfold run. rewrite Hw. simpl.
    destruct pending as [|e pending]; [done|].
    destruct ((e :: pending) !! pick) as [[idx ch]|] eqn:Hp; simpl; [|done].
    destruct (heap s !! ch) as [c|] eqn:Hc; simpl; [|done].
    rewrite (room_zero_full s ch c m); [done| |done].
    apply (Hfull idx). apply list_elem_of_lookup. eauto.
  - intros j pick m' Hj. unfold run, Lock. rewrite Hj. simpl. by rewrite Hmu.
  - intros now r w Hm. unfold serveIndex. rewrite Hm. simpl.
    unfold getListener, addListener, Lock, Request_Cookie. rewrite Hmu.
    destruct (List.find _ (Cookies r)); done.
  - intros upgrade_ok r w c Hm Hc Hnz%Z.eqb_neq.
    unfold logOutput. rewrite Hm, Hc, Hnz. simpl.
    unfold getListener, Lock. by rewrite Hmu.
  - intros b ss Hpc. unfold logOutput_step. rewrite Hpc.
    unfold removeListener, Lock. by rewrite Hmu.
Qed.

Lemma full_queue_stalls_witness :
  run 0 0 stalled_server = None ∧
  serveIndex 7 (get_request "/" []) new_response stalled_server = None ∧
  logOutput_step true (Session 101 0 {| conn_open := false; frames := [] |} Removing)
    stalled_server = None.
Proof.
  assert (wf stalled_server) as Hwf.
  { apply wf_intro.
    - split; simpl.
      + intros idx ch [<- <-]%lookup_singleton_Some. simpl. lia.
      + intros i j ch [<- _]%lookup_singleton_Some [<- _]%lookup_singleton_Some. done.
    - intros [|[|i]] w; simpl; [intros [= <-]|done|done]. simpl. split.
      + apply NoDup_singleton.
      + intros idx ch [= -> ->]%list_elem_of_singleton. done.
    - split.
      + intros [|[|i]] w; simpl; done.
      + intros [|[|i]] [|[|j]] wi wj; simpl; done.
    - done.
    - intros [|[|ch]] c; simpl; [intros [= <-]; done|done|done]. }
  destruct (full_queue_stalls 0 "m" [(101, 0%nat)] stalled_server Hwf eq_refl)
    as (Hrun & _ & Hindex & _ & Hremove).
  - discriminate.
  - intros idx ch [= -> ->]%list_elem_of_singleton. vm_compute. reflexivity.
  - split; [apply Hrun|]. split; [by apply Hindex|by apply Hremove].
Defined.

(** ** Where sessions and messages come from *)

Lemma ServeHTTP_effect now upgrade_ok r w s w' s' ss :
  ServeHTTP now upgrade_ok r w s = Some (w', s', ss) →
  workers s' = (workers s ++ [AtRecv])%list ∧
  (heap s' = heap s ∨ heap s' = (heap s ++ [make msgBuffer])%list) ∧
  (messages s' = messages s ∨
   ∃ body, Path r = "/webhook" ∧ Method r = "POST" ∧ Body r = Some body ∧
           buf (messages s') = (buf (messages s) ++ [body])%list) ∧
  (∀ n, ss = Some n → frames (s_conn n) = []) ∧
  (fanOut s' = fanOut s ∨
   Path r = "/" ∧ Method r = "GET" ∧ fanOut s' = <[now := length (heap s)]> (fanOut s)).
Proof.
  unfold ServeHTTP.
  destruct (String.eqb_spec (Path r) "/") as [Hpath|_].
  { destruct (serveIndex _ _ _ _) as [[w1 s1]|] eqn:Hs; simpl; [|done].
    intros [= _ <- <-].
    assert (Method r = "GET" ∨ s1 = go_run s) as [Hm | ->].
    { unfold serveIndex in Hs.
      destruct (String.eqb_spec (Method r) "GET"); [by left|right].
      simpl in Hs. by injection Hs as _ <-. }
    - apply serveIndex_server in Hs as [->|[ch Ha]].
      + repeat split; auto. done.
      + apply addListener_Some in Ha as (_ & _ & _ & ->). simpl.
        repeat split; auto. done.
    - repeat split; auto. done. }
  destruct (String.eqb_spec (Path r) "/logs") as [Hpath|_].
  { intros Hl. pose proof (logOutput_server _ _ _ _ _ _ _ Hl) as ->.
    repeat split; auto.
    intros n ->. revert Hl. unfold logOutput.
    destruct (negb (Method r =? "GET")%string); [done|].
    destruct (Request_Cookie r "idx") as [cookie [e|]]; simpl.
    - by destruct e.
    - destruct (parseCookie cookie =? 0); [done|].
      destruct (getListener (parseCookie cookie) (go_run s)) as [[ch|]|]; simpl; try done.
      destruct upgrade_ok; [|done]. by intros [= _ <-]. }
  destruct (String.eqb_spec (Path r) "/webhook") as [Hpath|_].
  { destruct (webhookReceiver _ _ _) as [[w1 s1]|] eqn:Hs; simpl; [|done].
    intros [= _ <- <-].
    assert (Method r = "POST" ∨ s1 = go_run s) as [Hm | ->].
    { unfold webhookReceiver in Hs.
      destruct (String.eqb_spec (Method r) "POST"); [by left|right].
      simpl in Hs. by injection Hs as _ <-. }
    - apply webhookReceiver_server in Hs as [->|(body & q & Hb & Hsend & ->)].
      + repeat split; auto. done.
      + apply send_Some in Hsend as (_ & _ & ->). simpl.
        repeat split; auto; [|done]. right. by exists body.
    - repeat split; auto. done. }
  intros [= _ <- <-]. repeat split; auto. done.
Qed.

Lemma logOutput_step_effect b ss s ss' s' :
  logOutput_step b ss s = Some (ss', s') →
  messages s' = messages s ∧ workers s' = workers s ∧
  (∀ idx, is_Some (fanOut s' !! idx) → is_Some (fanOut s !! idx)) ∧
  (∀ m, m ∈ frames (s_conn ss') →
        m ∈ frames (s_conn ss) ∨ ∃ c, heap s !! s_ch ss = Some c ∧ m ∈ buf c) ∧
  (∀ ch c' m, heap s' !! ch = Some c' → m ∈ buf c' →
              ∃ c, heap s !! ch = Some c ∧ m ∈ buf c).
Proof.
  unfold logOutput_step. destruct (s_pc ss); [| |done].
  - destruct (heap s !! s_ch ss) as [c|] eqn:Hc; simpl; [|done].
    destruct (recv c) as [[msg c']|] eqn:Hr.
    + apply recv_Some in Hr as (q & Hb & ->).
      assert (∀ ch c' m,
                <[s_ch ss := Chan q (cap c) (closed c)]> (heap s) !! ch = Some c' →
                m ∈ buf c' → ∃ c0, heap s !! ch = Some c0 ∧ m ∈ buf c0) as Hheap.
      { intros ch c' m [(<- & <- & _)|[_ Hc']]%list_lookup_insert_Some Hin; [|eauto].
        exists c. split; [done|]. rewrite Hb. by right. }
      destruct b; simpl; intros [= <- <-]; simpl; repeat split; try done.
      * intros m [Hin | ->%list_elem_of_singleton]%elem_of_app; [by left|right].
        exists c. split; [done|]. rewrite Hb. by left.
      * intros m Hin. by left.
    + destruct (drained c); [|done]. intros [= <- <-]. simpl.
      repeat split; try done; eauto.
  - destruct (removeListener (s_idx ss) s) as [s1|] eqn:Hrm; simpl; [|done].
    intros [= <- <-]. apply removeListener_Some in Hrm as [_ ->]. simpl.
    repeat split; try done; eauto.
    intros idx [ch [_ Hf]%lookup_delete_Some]. eauto.
Qed.

Lemma step_registry e x x' idx :
  step e x = Some x' → is_Some (fanOut (srv x') !! idx) →
  is_Some (fanOut (srv x) !! idx) ∨ index_request e idx.
Proof.
  destruct e as [now upgrade_ok r|i pick|k push_ok]; simpl.
  - destruct (ServeHTTP _ _ _ _ _) as [[[w s] ss]|] eqn:Hs; simpl; [|done].
    intros [= <-]. simpl.
    apply ServeHTTP_effect in Hs as (_ & _ & _ & _ & [->|(Hp & Hm & ->)]); [by left|].
    rewrite lookup_insert. case_decide as Hidx; [|by left].
    subst idx. intros _. right. by exists upgrade_ok, r.
  - destruct (run i pick (srv x)) as [s|] eqn:Hr; simpl; [|done].
    intros [= <-]. simpl. apply run_iff in Hr. destruct Hr; by left.
  - destruct (sessions x !! k) as [ss|]; simpl; [|done].
    destruct (logOutput_step _ _ _) as [[ss' s]|] eqn:Hl; simpl; [|done].
    intros [= <-]. simpl. apply logOutput_step_effect in Hl as (_ & _ & Hf & _).
    intros ?%Hf. by left.
Qed.

(** X16: sessions are created by the entry page only.  Every identifier
    registered in a state the server has reached is the clock reading at
    which some GET to [/] was served; requests to [/logs] and [/webhook],
    the broadcast workers and the stream handlers add none. *)
Theorem sessions_from_entry_page token es x idx :
  exec es (new_world token) = Some x →
  is_Some (fanOut (srv x) !! idx) →
  ∃ e, e ∈ es ∧ index_request e idx.
Proof.
  assert (∀ es x0, exec es x0 = Some x → is_Some (fanOut (srv x) !! idx) →
                   is_Some (fanOut (srv x0) !! idx) ∨ ∃ e, e ∈ es ∧ index_request e idx)
    as Hgen.
  { clear es. induction es as [|e es IH]; intros x0; simpl.
    - intros [= <-]. by left.
    - destruct (step e x0) as [x1|] eqn:Hs; simpl; [|done]. intros Hex Hin.
      destruct (IH _ Hex Hin) as [Hin1|(e' & He' & Hreq)].
      + destruct (step_registry _ _ _ _ Hs Hin1) as [?|?]; [by left|right].
        exists e. split; [left|done].
      + right. exists e'. split; [by right|done]. }
  intros Hex Hin. destruct (Hgen es _ Hex Hin) as [[ch Hch]|?]; [|done].
  simpl in Hch. by rewrite lookup_empty in Hch.
Qed.

Lemma sessions_from_entry_page_witness :
  ∃ e, e ∈ demo_events ∧ index_request e 102.
Proof.
  apply (sessions_from_entry_page "" demo_events demo 102).
  - vm_compute. reflexivity.
  - exists 1%nat. reflexivity.
Defined.

Lemma step_carries e x x' m :
  step e x = Some x' → carries x' m → carries x m ∨ webhook_request e m.
Proof.
  destruct e as [now upgrade_ok r|i pick|k push_ok]; simpl.
  - destruct (ServeHTTP _ _ _ _ _) as [[[w s] ss]|] eqn:Hs; simpl; [|done].
    intros [= <-].
    apply ServeHTTP_effect in Hs as (Hws & Hheap & Hmsgs & Hnew & _).
    intros [Hin|ch c Hc Hin|j wj Hj Hh|j sj Hj Hin]; simpl in *.
    + destruct Hmsgs as [Heq|(body & Hp & Hm & Hb & Heq)]; rewrite Heq in Hin.
      * left. by apply in_inbound.
      * apply elem_of_app in Hin as [Hin | ->%list_elem_of_singleton].
        -- left. by apply in_inbound.
        -- right. by exists now, upgrade_ok, r.
    + left. destruct Hheap as [Heq|Heq]; rewrite Heq in Hc.
      * by eapply in_queue.
      * apply lookup_app_Some in Hc as [Hc|[_ Hc]]; [by eapply in_queue|].
        apply list_lookup_singleton_Some in Hc as [_ <-]. by apply elem_of_nil in Hin.
    + left. rewrite Hws in Hj.
      apply lookup_app_Some in Hj as [Hj|[_ Hj]]; [by eapply in_hand|].
      by apply list_lookup_singleton_Some in Hj as [_ <-].
    + left. apply lookup_app_Some in Hj as [Hj|[_ Hj]]; [by eapply in_frames|].
      destruct ss as [n|]; [|done].
      apply list_lookup_singleton_Some in Hj as [_ <-].
      rewrite (Hnew n eq_refl) in Hin. by apply elem_of_nil in Hin.
  - destruct (run i pick (srv x)) as [s|] eqn:Hr; simpl; [|done].
    intros [= <-] Hcar. left. apply run_iff in Hr.
    destruct Hr as [m0 q Hw Hb|m0 Hw Hfree|m0 pending idx ch c Hw Hp Hc Hcl Hlt|m0 Hw];
      destruct Hcar as [Hin|ch' c' Hc' Hin|j wj Hj Hh|j sj Hj Hin]; simpl in *;
      try (by apply in_inbound); try (by eapply in_queue); try (by eapply in_frames).
    + apply in_inbound. rewrite Hb. by right.
    + apply list_lookup_insert_Some in Hj as [(_ & <- & _)|[_ Hj]]; [|by eapply in_hand].
      injection Hh as <-. apply in_inbound. rewrite Hb. by left.
    + apply list_lookup_insert_Some in Hj as [(_ & <- & _)|[_ Hj]]; [|by eapply in_hand].
      injection Hh as <-. by eapply in_hand.
    + apply list_lookup_insert_Some in Hc' as [(_ & <- & _)|[_ Hc']]; [|by eapply in_queue].
      simpl in Hin. apply elem_of_app in Hin as [Hin | ->%list_elem_of_singleton].
      * by eapply in_queue.
      * by eapply in_hand.
    + apply list_lookup_insert_Some in Hj as [(_ & <- & _)|[_ Hj]]; [|by eapply in_hand].
      injection Hh as <-. by eapply in_hand.
    + apply list_lookup_insert_Some in Hj as [(_ & <- & _)|[_ Hj]]; [done|by eapply in_hand].
  - destruct (sessions x !! k) as [ss|] eqn:Hk; simpl; [|done].
    destruct (logOutput_step _ _ _) as [[ss' s]|] eqn:Hl; simpl; [|done].
    intros [= <-] Hcar. left.
    apply logOutput_step_effect in Hl as (Hmsgs & Hws & _ & Hfr & Hheap).
    destruct Hcar as [Hin|ch' c' Hc' Hin|j wj Hj Hh|j sj Hj Hin]; simpl in *.
    + apply in_inbound. by rewrite <- Hmsgs.
    + destruct (Hheap _ _ _ Hc' Hin) as (c & Hc & Hin'). by eapply in_queue.
    + rewrite Hws in Hj. by eapply in_hand.
    + apply list_lookup_insert_Some in Hj as [(_ & <- & _)|[_ Hj]]; [|by eapply in_frames].
      destruct (Hfr _ Hin) as [Hold|(c & Hc & Hin')]; [by eapply in_frames|by eapply in_queue].
Qed.

(** X17: nothing is delivered that was not published.  Every frame
    pushed to a subscriber, and every message found in a queue or in the
    hand of a worker, in a state the server has reached, is the body of a
    POST to [/webhook] served before. *)
Theorem frames_were_published token es x m :
  exec es (new_world token) = Some x → carries x m →
  ∃ e, e ∈ es ∧ webhook_request e m.
Proof.
  assert (∀ es x0, exec es x0 = Some x → carries x m →
                   carries x0 m ∨ ∃ e, e ∈ es ∧ webhook_request e m) as Hgen.
  { clear es. induction es as [|e es IH]; intros x0; simpl.
    - intros [= <-]. by left.
    - destruct (step e x0) as [x1|] eqn:Hs; simpl; [|done]. intros Hex Hcar.
      destruct (IH _ Hex Hcar) as [Hcar1|(e' & He' & Hreq)].
      + destruct (step_carries _ _ _ _ Hs Hcar1) as [?|?]; [by left|right].
        exists e. split; [left|done].
      + right. exists e'. split; [by right|done]. }
  intros Hex Hcar. destruct (Hgen es _ Hex Hcar) as [Hinit|?]; [|done].
  destruct Hinit as [Hin|ch c Hc Hin|j wj Hj Hh|j sj Hj Hin]; simpl in *.
  - by apply elem_of_nil in Hin.
  - by rewrite lookup_nil in Hc.
  - by rewrite lookup_nil in Hj.
  - by rewrite lookup_nil in Hj.
Qed.

Lemma frames_were_published_witness :
  ∃ x ss, exec demo_deliver (new_world "") = Some x ∧
          sessions x !! 0%nat = Some ss ∧ frames (s_conn ss) = ["a"] ∧
          ∃ e, e ∈ demo_deliver ∧ webhook_request e "a".
Proof.
  destruct (exec demo_deliver (new_world "")) as [x|] eqn:Hex; [|discriminate].
  destruct (sessions x !! 0%nat) as [ss|] eqn:Hss;
    [|vm_compute in Hex; injection Hex as <-; discriminate].
  assert (frames (s_conn ss) = ["a"]) as Hfr.
  { vm_compute in Hex. injection Hex as <-. vm_compute in Hss. by injection Hss as <-. }
  exists x, ss. split; [done|]. split; [done|]. split; [done|].
  apply (frames_were_published "" demo_deliver x "a" Hex).
  eapply in_frames; [done|]. rewrite Hfr. by left.
Defined.

(** ** From a publish to a frame *)

(** X18: a message published while nobody is registered is dropped: the
    worker that receives it takes the lock, finds nothing to visit and
    releases the lock; the message is gone from the inbound queue and no
    queue has changed. *)
Theorem run_without_subscribers i s m q :
  workers s !! i = Some AtRecv → mu s = false → fanOut s = ∅ →
  buf (messages s) = m :: q →
  ∀ p1 p2 p3, ∃ s',
    run_steps i [p1; p2; p3] s = Some s' ∧
    buf (messages s') = q ∧ heap s' = heap s ∧ fanOut s' = ∅ ∧
    mu s' = false ∧ workers s' = workers s.
Proof.
  intros Hw Hfree Hempty Hb p1 p2 p3.
  assert (i < length (workers s))%nat as Hi by (by eapply lookup_lt_Some).
  pose proof (run_receive i p1 s m q Hw Hb) as H1. apply run_iff in H1.
  match type of H1 with _ = Some ?y => set (s1 := y) in * end.
  assert (workers s1 !! i = Some (AtLock m)) as Hw1
    by (unfold s1; simpl; by rewrite list_lookup_insert_eq).
  pose proof (run_lock i p2 s1 m Hw1 Hfree) as H2. apply run_iff in H2.
  match type of H2 with _ = Some ?y => set (s2 := y) in * end.
  assert (workers s2 !! i = Some (InRange m [])) as Hw2.
  { unfold s2, s1; simpl. rewrite Hempty, map_to_list_empty.
    apply list_lookup_insert_eq. by rewrite length_insert. }
  pose proof (run_unlock i p3 s2 m Hw2) as H3. apply run_iff in H3.
  match type of H3 with _ = Some ?y => set (s3 := y) in * end.
  exists s3. split.
  - simpl. rewrite H1. simpl. rewrite H2. simpl. by rewrite H3.
  - unfold s3, s2, s1; simpl. repeat split; try done.
    rewrite !list_insert_insert_eq. by apply list_insert_id.
Qed.

Lemma run_without_subscribers_witness :
  ∃ w s1 s2,
    ServeHTTP 0 (Refused 400) (post_webhook None "hello") new_response (new_server "")
      = Some (w, s1, None) ∧ status w = StatusOK ∧
    run_steps 0 [0; 0; 0]%nat s1 = Some s2 ∧
    buf (messages s2) = [] ∧ heap s2 = [].
Proof.
  destruct (ServeHTTP 0 (Refused 400) (post_webhook None "hello") new_response (new_server ""))
    as [[[w s1] ss]|] eqn:Hs; [|discriminate].
  vm_compute in Hs. injection Hs as <- <- <-.
  match goal with |- ∃ w s1 s2, Some (_, ?y, _) = _ ∧ _ => set (s1 := y) end.
  destruct (run_without_subscribers 0 s1 "hello" [] eq_refl eq_refl eq_refl eq_refl
              0%nat 0%nat 0%nat) as (s2 & Hsteps & Hb & Hh & _).
  eexists _, s1, s2. split; [reflexivity|]. split; [reflexivity|]. done.
Defined.

(** X19: from a publish to a frame.  With the inbound queue empty, an idle
    worker, the mutex free and room in every subscriber queue, a POST to
    [/webhook] that is accepted is taken by the worker in one turn of its
    loop to every registered queue, and the next turn of the delivery
    loop of a subscriber whose queue was empty pushes exactly that body
    as one frame. *)
Theorem publish_reaches_subscriber r w s i ss body :
  wf s → mu s = false → workers s !! i = Some AtRecv → buf (messages s) = [] →
  Method r = "POST" →
  bearer s = "" ∨ authorized_header (Header_Get_Authorization r) (bearer s) →
  Body r = Some body →
  s_pc ss = Streaming → fanOut s !! s_idx ss = Some (s_ch ss) →
  queue s (s_ch ss) = [] →
  (∀ idx ch, fanOut s !! idx = Some ch → (0 < room s ch)%nat) →
  ∃ w' s1 picks s2 ss' s3,
    webhookReceiver r w s = Some (w', s1) ∧
    run_steps i picks s1 = Some s2 ∧
    (∀ idx ch, fanOut s !! idx = Some ch → queue s2 ch = (queue s ch ++ [body])%list) ∧
    logOutput_step true ss s2 = Some (ss', s3) ∧
    frames (s_conn ss') = (frames (s_conn ss) ++ [body])%list ∧
    s_pc ss' = Streaming ∧ queue s3 (s_ch ss) = [].
Proof.
  intros Hwf Hfree Hw Hb Hm Hauth Hbody Hpc Hreg Hq Hroom.
  assert ((bearer s =? "")%string
          || negb (bearer_mismatch (Header_Get_Authorization r) (bearer s)) = true) as Hok.
  { destruct Hauth as [->|Hok%bearer_mismatch_false]; [done|].
    rewrite Hok. apply orb_true_r. }
  pose proof (webhookReceiver_enqueue r w s body Hwf ltac:(by rewrite Hm) Hok Hbody
                ltac:(rewrite Hb; simpl; unfold msgBuffer; lia)) as Hpost.
  rewrite Hb in Hpost. simpl in Hpost.
  match type of Hpost with _ = Some (_, ?y) => set (s1 := y) in * end.
  assert (wf s1) as Hwf1 by (by eapply wf_webhookReceiver).
  destruct (run_one_message i s1 body [] Hwf1 Hw Hfree eq_refl Hroom)
    as (picks & s2 & Hsteps & Hw2 & Hfree2 & Hb2).
  destruct (run_steps_safe i s1 s2 picks [body] [] Hwf1 Hw eq_refl Hsteps Hw2 Hb2)
    as [Hfan Hq2].
  assert (wf s2) as Hwf2 by (by eapply wf_run_steps).
  pose proof (Hq2 _ _ Hreg) as Hmine.
  change (queue s1 (s_ch ss)) with (queue s (s_ch ss)) in Hmine.
  rewrite Hq in Hmine. simpl in Hmine.
  unfold queue in Hmine.
  destruct (heap s2 !! s_ch ss) as [c|] eqn:Hc; [|done].
  assert (s_ch ss < length (heap s2))%nat as Hlt by (by eapply lookup_lt_Some).
  eexists w, s1, picks, s2, _, _.
  split; [done|]. split; [done|]. split; [exact Hq2|].
  split; [by apply (logOutput_step_deliver ss s2 c body [])|].
  split; [done|]. split; [done|].
  unfold queue. simpl. by rewrite list_lookup_insert_eq.
Qed.

Lemma publish_reaches_subscriber_witness :
  let s := Server "" (make msgBuffer) {[101 := 0%nat]} false
             [make msgBuffer] [AtRecv] in
  let ss := Session 101 0 {| conn_open := true; frames := [] |} Streaming in
  ∃ w' s1 picks s2 ss' s3,
    webhookReceiver (post_webhook None "world") new_response s = Some (w', s1) ∧
    run_steps 0 picks s1 = Some s2 ∧
    logOutput_step true ss s2 = Some (ss', s3) ∧
    frames (s_conn ss') = ["world"].
Proof.
  intros s ss.
  assert (wf s) as Hwf.
  { apply wf_intro.
    - split; simpl.
      + intros idx ch [<- <-]%lookup_singleton_Some. simpl. lia.
      + intros i j ch [<- _]%lookup_singleton_Some [<- _]%lookup_singleton_Some. done.
    - intros [|[|i]] w; simpl; [intros [= <-]; done|done|done].
    - split.
      + intros [|[|i]] w; simpl; [intros [= <-]; done|done|done].
      + intros [|[|i]] j wi wj; simpl; [intros [= <-]; done|done|done].
    - done.
    - intros [|[|ch]] c; simpl; [intros [= <-]; done|done|done]. }
  destruct (publish_reaches_subscriber (post_webhook None "world") new_response s 0 ss
              "world" Hwf eq_refl eq_refl eq_refl eq_refl (or_introl eq_refl) eq_refl
              eq_refl eq_refl eq_refl)
    as (w' & s1 & picks & s2 & ss' & s3 & H1 & H2 & _ & H3 & Hfr & _).
  { intros idx ch Hf. unfold s in Hf. simpl in Hf.
    apply lookup_singleton_Some in Hf as [<- <-]. vm_compute. lia. }
  exists w', s1, picks, s2, ss', s3. done.
Defined.

(** ** How long an entry stays registered *)



